(** * gamelingo: change detection, text similarity and the translation cache

    A shallow embedding of the caching and similarity pipeline of gamelingo,
    and the proofs of its specification.

    The first half of the file holds the definitions, one module per source
    unit:

    - [Utils]: [levenshtein_distance], [calculate_text_similarity_levenshtein],
      [clean_ocr_text], [calculate_image_hash] and [preprocess_image_for_ocr]
      of [utils.py];
    - [Cache]: the class [TranslationCache] of [translate.py];
    - [Translate]: the class [Translator] of [translate.py];
    - [Ocr]: the class [OCREngine] of [ocr.py];
    - [Gui]: the loop over the screen regions of [gui.py].

    The second half holds the facts, in [UtilsFacts], [CacheFacts],
    [TranslateFacts], [OcrFacts] and [GuiFacts].

    Conventions.  Python integers are unbounded and the ones that occur here
    are lengths and distances, so they are [nat] (and [Z] where the source
    accepts any integer, as for [max_size]).  A Python [str] is a sequence of
    code points; the embedding keeps the code points below 256, one per
    [ascii], with Python's whitespace and lower-casing tables for that range.
    The similarity of two texts is kept as an exact rational [Q] where its
    range and its equalities are at stake; where the code compares it with
    the threshold it is the binary64 float the interpreter computes
    ([Utils.Binary64], on [SpecFloat]).  An operation that can
    raise returns an [option] ([None] is the exception).  An [OrderedDict] is
    an association list in iteration order, oldest entry first.  A method of
    an object takes the object and returns it after the call; what a call
    does to the outside (the translation service, the OCR program, stderr) is
    returned as a list of events. *)

From Stdlib Require Import Ascii String QArith Lqa.
From Stdlib Require SpecFloat.
From stdpp Require Import base tactics option list numbers strings sorting pretty.

Local Open Scope nat_scope.

(** ** utils.py *)

Module Utils.

Section Levenshtein.
Context {A : Type} `{EqDecision A}.

(** [(c1 != c2)] used as an integer. *)
Definition neq_cost (c1 c2 : A) : nat := if decide (c1 = c2) then 0 else 1.

(** The inner loop [for j, c2 in enumerate(s2)]: [s2] is what is left of
    the second string, [j] the index of its head. Indexing a row out of
    range raises [IndexError]. *)
Fixpoint inner_loop (c1 : A) (s2 : list A) (j : nat)
    (previous_row current_row : list nat) : option (list nat) :=
  match s2 with
  | [] => Some current_row
  | c2 :: s2' =>
      p1 ← previous_row !! (j + 1);
      cj ← current_row !! j;
      p0 ← previous_row !! j;
      let insertions := p1 + 1 in
      let deletions := cj + 1 in
      let substitutions := p0 + neq_cost c1 c2 in
      inner_loop c1 s2' (S j) previous_row
        (current_row ++ [insertions `min` (deletions `min` substitutions)])
  end.

(** The outer loop [for i, c1 in enumerate(s1)]. *)
Fixpoint outer_loop (s1 : list A) (i : nat) (s2 : list A)
    (previous_row : list nat) : option (list nat) :=
  match s1 with
  | [] => Some previous_row
  | c1 :: s1' =>
      current_row ← inner_loop c1 s2 0 previous_row [i + 1];
      outer_loop s1' (S i) s2 current_row
  end.

(** The body of [levenshtein_distance] below its first test;
    [previous_row[-1]] is the last element of the row. *)
Definition levenshtein_rows (s1 s2 : list A) : option nat :=
  if decide (length s2 = 0) then Some (length s1)
  else
    row ← outer_loop s1 0 s2 (seq 0 (length s2 + 1));
    last row.

(** [levenshtein_distance]: the recursive call swaps the arguments when the
    first is the shorter one; in the callee the test is then false, so the
    recursion is one level deep and is written out. *)
Definition levenshtein_distance (s1 s2 : list A) : option nat :=
  if decide (length s1 < length s2) then levenshtein_rows s2 s1
  else levenshtein_rows s1 s2.

(** *** Edit scripts: what the distance is meant to count *)

(** One single-character insertion, deletion or substitution. *)
Inductive edit : list A → list A → Prop :=
  | edit_insert l c r : edit (l ++ r) (l ++ c :: r)
  | edit_delete l c r : edit (l ++ c :: r) (l ++ r)
  | edit_substitute l c c' r : edit (l ++ c :: r) (l ++ c' :: r).

(** [edits n a b]: [n] successive edits transform [a] into [b]. *)
Inductive edits : nat → list A → list A → Prop :=
  | edits_done a : edits 0 a a
  | edits_step n a b c : edit a b → edits n b c → edits (S n) a c.

(** The textbook recurrence on the heads of both strings. *)
Fixpoint lev (a : list A) : list A → nat :=
  match a with
  | [] => fun b => length b
  | x :: a' =>
      fix lev_a (b : list A) : nat :=
        match b with
        | [] => S (length a')
        | y :: b' =>
            (lev a' b + 1) `min` ((lev_a b' + 1) `min` (lev a' b' + neq_cost x y))
        end
  end.

(** Row [i] of the table: the distances between the first [i] characters
    of [s1] (reversed into [ra]) and every prefix of [s2]. *)
Definition row_of (ra s2 : list A) : list nat :=
  (λ k, lev ra (reverse (take k s2))) <$> seq 0 (S (length s2)).

End Levenshtein.

(** *** Strings *)

(** [str.isspace] on the code points below 256: TAB..CR, FS..US and SPACE,
    NEL (0x85) and NBSP (0xA0). *)
Definition isspace (c : ascii) : bool :=
  let n := nat_of_ascii c in
  ((9 <=? n) && (n <=? 13)) || ((28 <=? n) && (n <=? 32))
  || (n =? 133) || (n =? 160).

(** [str.lower] on one code point below 256: A..Z and the capital letters
    0xC0..0xDE (but the multiplication sign 0xD7) move up by 0x20. *)
Definition lower_char (c : ascii) : ascii :=
  let n := nat_of_ascii c in
  if ((65 <=? n) && (n <=? 90))
     || ((192 <=? n) && (n <=? 222) && negb (n =? 215))
  then ascii_of_nat (n + 32) else c.

Fixpoint lower (s : string) : string :=
  match s with
  | EmptyString => EmptyString
  | String c s' => String (lower_char c) (lower s')
  end.

Fixpoint lstrip (s : string) : string :=
  match s with
  | EmptyString => EmptyString
  | String c s' => if isspace c then lstrip s' else s
  end.

Fixpoint rstrip (s : string) : string :=
  match s with
  | EmptyString => EmptyString
  | String c s' =>
      match rstrip s' with
      | EmptyString => if isspace c then EmptyString else String c EmptyString
      | r => String c r
      end
  end.

(** [text.strip()] *)
Definition strip (s : string) : string := rstrip (lstrip s).

(** Python's truth value of a string: [not text]. *)
Definition is_empty (s : string) : bool := bool_decide (s = EmptyString).

(** [len(t)] *)
Definition len (s : string) : nat := String.length s.

(** [text.split()]: the maximal runs of non-whitespace, [word] being the
    run read so far. *)
Fixpoint split_from (s word : string) : list string :=
  match s with
  | EmptyString => if is_empty word then [] else [word]
  | String c s' =>
      if isspace c then
        if is_empty word then split_from s' EmptyString
        else word :: split_from s' EmptyString
      else split_from s' (word +:+ String c EmptyString)
  end.

Definition split (s : string) : list string := split_from s EmptyString.

(** [text.replace(old, new)] for a non-empty [old]: occurrences are replaced
    from the left and do not overlap; [skip] counts the characters of a
    replaced occurrence still to be passed over. *)
Fixpoint replace_from (old new : string) (skip : nat) (s : string) : string :=
  match s with
  | EmptyString => EmptyString
  | String c s' =>
      match skip with
      | S k => replace_from old new k s'
      | O =>
          if String.prefix old s
          then new +:+ replace_from old new (String.length old - 1) s'
          else String c (replace_from old new 0 s')
      end
  end.

Definition replace (old new s : string) : string := replace_from old new 0 s.

(** The two-character literal of [clean_ocr_text]: U+00EF U+00BC. *)
Definition fullwidth_zero_prefix : string :=
  String (ascii_of_nat 239) (String (ascii_of_nat 188) EmptyString).

(** [clean_ocr_text] *)
Definition clean_ocr_text (text : string) : string :=
  if is_empty text then EmptyString
  else
    let text := String.concat " " (split text) in
    let text := replace "|" "I" text in
    let text := replace fullwidth_zero_prefix "0" text in
    strip text.

(** [distance / max_len] and [1.0 - x] on floats, as exact rationals. *)
Definition ratio (distance max_len : nat) : Q :=
  inject_Z (Z.of_nat distance) / inject_Z (Z.of_nat max_len).

(** [calculate_text_similarity_levenshtein] *)
Definition calculate_text_similarity_levenshtein (text1 text2 : string) : option Q :=
  if is_empty text1 || is_empty text2 then Some 0%Q
  else
    let t1 := lower (strip text1) in
    let t2 := lower (strip text2) in
    if bool_decide (t1 = t2) then Some 1%Q
    else
      distance ← levenshtein_distance (list_ascii_of_string t1) (list_ascii_of_string t2);
      let max_len := len t1 `max` len t2 in
      if bool_decide (max_len = 0) then Some 0%Q
      else Some (1 - ratio distance max_len)%Q.

(** *** The floats of the interpreter

    A Python [float] is an IEEE 754 binary64 number and every operation
    rounds to nearest, ties to even.  Where a result is compared with another
    float, as in [Translator.translate], the rounding decides, and the
    arithmetic is the one of [SpecFloat]: 53 bits of precision, exponents
    below 1024. *)

Module Binary64.

Definition float : Type := SpecFloat.spec_float.

Definition prec : Z := 53.
Definition emax : Z := 1024.

(** The float of an [int] that is not negative. *)
Definition of_nat (n : nat) : float :=
  SpecFloat.binary_normalize prec emax (Z.of_nat n) 0 false.

(** The literals [0.0] and [1.0]. *)
Definition zero : float := SpecFloat.S754_zero false.
Definition one : float := of_nat 1.

(** [a / b] on two [int]s: [ZeroDivisionError] when [b] is 0, else the
    quotient rounded once.  (For operands below 2^53, as lengths and
    distances are, the interpreter's correctly rounded quotient of the two
    integers is the float quotient of the two converted operands.) *)
Definition truediv (a b : nat) : option float :=
  if bool_decide (b = 0) then None
  else Some (SpecFloat.SFdiv prec emax (of_nat a) (of_nat b)).

(** [x - y] *)
Definition sub (x y : float) : float := SpecFloat.SFsub prec emax x y.

(** [x >= y] *)
Definition ge (x y : float) : bool := SpecFloat.SFleb y x.

(** [x > y] *)
Definition gt (x y : float) : bool := SpecFloat.SFltb y x.

(** [calculate_text_similarity_levenshtein], with the value it returns as
    the float the interpreter computes. *)
Definition calculate_text_similarity_levenshtein (text1 text2 : string) : option float :=
  if is_empty text1 || is_empty text2 then Some zero
  else
    let t1 := lower (strip text1) in
    let t2 := lower (strip text2) in
    if bool_decide (t1 = t2) then Some one
    else
      distance ← levenshtein_distance (list_ascii_of_string t1) (list_ascii_of_string t2);
      let max_len := len t1 `max` len t2 in
      if bool_decide (max_len = 0) then Some zero
      else
        quotient ← truediv distance max_len;
        Some (sub one quotient).

(** The float of a decimal literal with two digits after the point, as
    [0.85]: the float nearest to [hundredths / 100]. *)
Definition hundredths (n : nat) : float :=
  SpecFloat.SFdiv prec emax (of_nat n) (of_nat 100).

Global Arguments of_nat : simpl never.
Global Arguments truediv : simpl never.
Global Arguments sub : simpl never.
Global Arguments ge : simpl never.
Global Arguments gt : simpl never.
Global Arguments hundredths : simpl never.

End Binary64.

(** *** Images *)

(** What the code uses of Pillow and hashlib.  An image is opaque; the
    operations that build a new image may raise. *)
Class Imaging := {
  Image : Type;
  tobytes : Image → list Byte.byte;
  size : Image → Z * Z;
  resize_nearest : Image → Z * Z → option Image;
  grayscale : Image → option Image;
  enhance_contrast : Image → Q → option Image;
  md5_hexdigest : list Byte.byte → string
}.

(** [calculate_image_hash] *)
Definition calculate_image_hash `{Imaging} (image : Image) : string :=
  md5_hexdigest (tobytes image).

(** [preprocess_image_for_ocr] *)
Definition preprocess_image_for_ocr `{Imaging} (image : Image) : option Image :=
  let '(width, height) := size image in
  img ← resize_nearest image (width * 4, height * 4)%Z;
  img ← grayscale img;
  enhance_contrast img (12 # 10).

(** [sum(c1 == c2 for c1, c2 in zip(t1, t2))] *)
Fixpoint matches (t1 t2 : string) : nat :=
  match t1, t2 with
  | String c1 t1', String c2 t2' =>
      (if bool_decide (c1 = c2) then 1 else 0) + matches t1' t2'
  | _, _ => 0
  end.

(** [calculate_text_similarity]: the position-wise ratio.  Nothing in it can
    raise, so the result is the number itself. *)
Definition calculate_text_similarity (text1 text2 : string) : Q :=
  if is_empty text1 || is_empty text2 then 0%Q
  else
    let t1 := lower (strip text1) in
    let t2 := lower (strip text2) in
    if bool_decide (t1 = t2) then 1%Q
    else
      let matches := matches t1 t2 in
      let max_len := len t1 `max` len t2 in
      if bool_decide (max_len = 0) then 0%Q
      else ratio matches max_len.

(** The set [valid_codes] of [validate_language_code]. *)
Definition valid_codes : list string :=
  ["en"; "it"; "es"; "fr"; "de"; "pt"; "ja"; "ko"; "zh-CN"; "zh-TW";
   "ru"; "ar"; "hi"; "nl"; "pl"; "tr"; "vi"; "th"; "id"; "ms"].

(** [validate_language_code] *)
Definition validate_language_code (lang_code : string) : bool :=
  bool_decide (lang_code ∈ valid_codes).

(** A string that is empty or starts with a character that is not
    whitespace. *)
Definition starts_clean (s : string) : Prop :=
  match s with
  | EmptyString => True
  | String c _ => isspace c = false
  end.

(** The characters of a string. *)
Definition chars (s : string) : list ascii := list_ascii_of_string s.

End Utils.

(** ** translate.py: [TranslationCache] *)

Module Cache.

Section TranslationCache.
Context {K V : Type} `{EqDecision K}.

(** *** The [OrderedDict] operations the class uses

    The dictionary is the list of its items in iteration order, so the first
    item is the oldest one. *)

(** [d[k]]; [None] stands for [KeyError]. *)
Fixpoint od_get (k : K) (d : list (K * V)) : option V :=
  match d with
  | [] => None
  | (k', v) :: d' => if decide (k = k') then Some v else od_get k d'
  end.

(** [k in d] *)
Definition od_contains (k : K) (d : list (K * V)) : bool :=
  match od_get k d with Some _ => true | None => false end.

(** Unlinking the item of key [k]. *)
Fixpoint od_remove (k : K) (d : list (K * V)) : list (K * V) :=
  match d with
  | [] => []
  | (k', v) :: d' => if decide (k = k') then d' else (k', v) :: od_remove k d'
  end.

(** [d.move_to_end(k)]: the item of [k] becomes the last one.  Python raises
    [KeyError] for an absent key; both callers test [k in d] first. *)
Definition od_move_to_end (k : K) (d : list (K * V)) : list (K * V) :=
  match od_get k d with
  | Some v => od_remove k d ++ [(k, v)]
  | None => d
  end.

(** [d[k] = v]: an existing key keeps its place, a new key goes last. *)
Fixpoint od_set (k : K) (v : V) (d : list (K * V)) : list (K * V) :=
  match d with
  | [] => [(k, v)]
  | (k', v') :: d' =>
      if decide (k = k') then (k', v) :: d' else (k', v') :: od_set k v d'
  end.

(** [d.popitem(last=False)]: the first item goes.  Python raises [KeyError]
    on an empty dictionary; [put] calls it right after an insertion. *)
Definition od_popitem_first (d : list (K * V)) : list (K * V) := tail d.

(** *** The class *)

Record TranslationCache := {
  max_size : Z;
  cache : list (K * V)
}.

(** [TranslationCache.__init__] *)
Definition init (max_size : Z) : TranslationCache :=
  {| max_size := max_size; cache := [] |}.

(** [TranslationCache.get]: the value found, if any, and the cache after
    the call. *)
Definition get (text : K) (self : TranslationCache) : option V * TranslationCache :=
  if od_contains text (cache self) then
    let d := od_move_to_end text (cache self) in
    (od_get text d, {| max_size := max_size self; cache := d |})
  else (None, self).

(** [TranslationCache.put] *)
Definition put (text : K) (translation : V) (self : TranslationCache) : TranslationCache :=
  if od_contains text (cache self) then
    let d := od_move_to_end text (cache self) in
    {| max_size := max_size self; cache := od_set text translation d |}
  else
    let d := od_set text translation (cache self) in
    if (Z.of_nat (length d) >? max_size self)%Z
    then {| max_size := max_size self; cache := od_popitem_first d |}
    else {| max_size := max_size self; cache := d |}.

(** [TranslationCache.clear] *)
Definition clear (self : TranslationCache) : TranslationCache :=
  {| max_size := max_size self; cache := [] |}.

(** The keys held, oldest first. *)
Definition keys (self : TranslationCache) : list K := (cache self).*1.

(** *** Histories of operations *)

Inductive op :=
  | Get (k : K)
  | Put (k : K) (v : V)
  | Clear.

Definition step (self : TranslationCache) (o : op) : TranslationCache :=
  match o with
  | Get k => (get k self).2
  | Put k v => put k v self
  | Clear => clear self
  end.

(** The cache after a whole history. *)
Definition run (self : TranslationCache) (ops : list op) : TranslationCache :=
  foldl step self ops.

(** The caches after each operation of a history, in order. *)
Fixpoint states (self : TranslationCache) (ops : list op) : list TranslationCache :=
  match ops with
  | [] => []
  | o :: ops' => step self o :: states (step self o) ops'
  end.

(** [touches self o k]: operation [o], applied to [self], is a put of [k]
    or a get that finds [k]. *)
Definition touches (self : TranslationCache) (o : op) (k : K) : bool :=
  match o with
  | Get k' => bool_decide (k' = k) && od_contains k (cache self)
  | Put k' _ => bool_decide (k' = k)
  | Clear => false
  end.

(** The time of the last get-hit or put of [k] in a history run from
    [self]: operations are numbered from [t + 1], and [seen] is the answer
    when none touches [k]. *)
Fixpoint last_use_from (t seen : nat) (self : TranslationCache)
    (ops : list op) (k : K) : nat :=
  match ops with
  | [] => seen
  | o :: ops' =>
      last_use_from (S t) (if touches self o k then S t else seen)
        (step self o) ops' k
  end.

(** The same from an empty cache; [0] when [k] was never put or found. *)
Definition last_use (N : Z) (ops : list op) (k : K) : nat :=
  last_use_from 0 0 (init N) ops k.

(** The invariant of a cache of capacity [N]. *)
Definition wf (N : Z) (self : TranslationCache) : Prop :=
  max_size self = N ∧ NoDup (keys self) ∧ (Z.of_nat (length (cache self)) ≤ N)%Z.

(** The keys are held in the order of their last use, oldest first. *)
Definition by_recency (f : K → nat) (l : list K) : Prop :=
  StronglySorted (λ k1 k2, f k1 < f k2) l.

End TranslationCache.

Global Arguments TranslationCache : clear implicits.
Global Arguments op : clear implicits.

(** The two capacity-2 histories of the cache tests, on string keys. *)
Definition refreshed_history : list (op string string) :=
  [Put "a" "1"; Put "b" "2"; Get "a"; Put "c" "3"].

Definition plain_history : list (op string string) :=
  [Put "a" "1"; Put "b" "2"; Put "c" "3"].

(** The history that puts the given items one after the other. *)
Definition puts {K V : Type} (items : list (K * V)) : list (op K V) :=
  (λ kv, Put kv.1 kv.2) <$> items.

End Cache.

(** ** translate.py: [Translator] *)

Module Translate.

Import Utils.

(** The translation service ([deep_translator.GoogleTranslator]) as one call
    of [translate] meets it. *)
Record Provider := {
  (** [GoogleTranslator(source=.., target=..)] returns an object ([true]) or
      raises ([false]). *)
  construct : string → string → bool;
  (** [translator.translate(text)] on the object built for a language pair:
      the translation, or [None] when the call raises. *)
  respond : string → string → string → option string
}.

(** What a call does besides returning, in order. *)
Inductive event :=
  | CacheGet (text : string)
  | CachePut (text translation : string)
  | Construct (source target : string)
  | ProviderCall (text : string)
  | Stderr.

Record Translator := {
  source_lang : string;
  target_lang : string;
  similarity_threshold : Binary64.float;
  cache : Cache.TranslationCache string string;
  _last_source_text : string;
  _last_translation : string;
  (** the [GoogleTranslator] object, known by the language pair it was built
      for, or Python's [None] *)
  translator : option (string * string)
}.

Definition with_cache (c : Cache.TranslationCache string string) (self : Translator) : Translator :=
  {| source_lang := source_lang self; target_lang := target_lang self;
     similarity_threshold := similarity_threshold self; cache := c;
     _last_source_text := _last_source_text self;
     _last_translation := _last_translation self;
     translator := translator self |}.

Definition with_last (text translation : string) (self : Translator) : Translator :=
  {| source_lang := source_lang self; target_lang := target_lang self;
     similarity_threshold := similarity_threshold self; cache := cache self;
     _last_source_text := text;
     _last_translation := translation;
     translator := translator self |}.

Definition with_translator (h : option (string * string)) (self : Translator) : Translator :=
  {| source_lang := source_lang self; target_lang := target_lang self;
     similarity_threshold := similarity_threshold self; cache := cache self;
     _last_source_text := _last_source_text self;
     _last_translation := _last_translation self;
     translator := h |}.

(** [Translator.__init__] *)
Definition init (env : Provider) (source_lang target_lang : string)
    (cache_size : Z) (similarity_threshold : Binary64.float) : Translator :=
  {| source_lang := source_lang; target_lang := target_lang;
     similarity_threshold := similarity_threshold;
     cache := Cache.init cache_size;
     _last_source_text := EmptyString;
     _last_translation := EmptyString;
     translator :=
       if construct env source_lang target_lang
       then Some (source_lang, target_lang) else None |}.

(** The test of lines 111-113 on the stripped [text], a comparison of two
    floats: [Some true] when the last translation is to be reused; [None]
    when the similarity raises. *)
Definition similar_to_last (self : Translator) (text : string) (force : bool) : option bool :=
  if negb force && negb (is_empty (_last_source_text self)) then
    similarity ←
      Binary64.calculate_text_similarity_levenshtein text (_last_source_text self);
    Some (Binary64.ge similarity (similarity_threshold self))
  else Some false.

(** The body of the [try] block: [None] as result when it raises. *)
Definition try_translate (env : Provider) (self : Translator) (text : string)
    : option string * Translator * list event :=
  let '(handle, self, evs) :=
    match translator self with
    | Some h => (Some h, self, [])
    | None =>
        let pair := (source_lang self, target_lang self) in
        if construct env pair.1 pair.2
        then (Some pair, with_translator (Some pair) self, [Construct pair.1 pair.2])
        else (None, self, [Construct pair.1 pair.2])
    end in
  match handle with
  | None => (None, self, evs)
  | Some (source, target) =>
      match respond env source target text with
      | None => (None, self, evs ++ [ProviderCall text])
      | Some translation =>
          let self := with_cache (Cache.put text translation (cache self)) self in
          let self := with_last text translation self in
          (Some translation, self,
           evs ++ [ProviderCall text; CachePut text translation])
      end
  end.

(** The [except] block: what is returned after a failure. *)
Definition fallback (self : Translator) (text : string) : string :=
  if is_empty (_last_translation self) then text
  else _last_translation self +:+ " [error]".

(** [Translator.translate]: the value returned ([None] when an exception
    leaves the call), the translator after the call and what the call did. *)
Definition translate (env : Provider) (self : Translator) (text : string) (force : bool)
    : option string * Translator * list event :=
  if is_empty text || is_empty (strip text) then (Some EmptyString, self, [])
  else
    let text := strip text in
    match similar_to_last self text force with
    | None => (None, self, [])
    | Some true => (Some (_last_translation self), self, [])
    | Some false =>
        let '(cached, c) := Cache.get text (cache self) in
        let self := with_cache c self in
        match cached with
        | Some cached =>
            (Some cached, with_last text cached self, [CacheGet text])
        | None =>
            let '(result, self, evs) := try_translate env self text in
            match result with
            | Some translation => (Some translation, self, CacheGet text :: evs)
            | None =>
                (Some (fallback self text), self, CacheGet text :: evs ++ [Stderr])
            end
        end
    end.

(** [Translator.clear_cache] *)
Definition clear_cache (self : Translator) : Translator :=
  with_last EmptyString EmptyString (with_cache (Cache.clear (cache self)) self).

(** [Translator.set_languages] *)
Definition set_languages (env : Provider) (self : Translator)
    (source target : string) : Translator :=
  if bool_decide (source ≠ source_lang self) || bool_decide (target ≠ target_lang self)
  then
    let self :=
      {| source_lang := source; target_lang := target;
         similarity_threshold := similarity_threshold self; cache := cache self;
         _last_source_text := _last_source_text self;
         _last_translation := _last_translation self;
         translator := translator self |} in
    if construct env source target
    then clear_cache (with_translator (Some (source, target)) self)
    else self
  else self.

(** The service fails on [text]: the object has to be built and the
    constructor raises, or the call raises. *)
Definition provider_fails (env : Provider) (self : Translator) (text : string) : Prop :=
  match translator self with
  | Some (source, target) => respond env source target text = None
  | None =>
      construct env (source_lang self) (target_lang self) = false
      ∨ respond env (source_lang self) (target_lang self) text = None
  end.

(** A service that answers every text in angle brackets, and one that is
    down. *)
Definition echo_provider : Provider :=
  {| construct := λ _ _, true;
     respond := λ _ _ text, Some ("<" +:+ text +:+ ">") |}.

Definition down_provider : Provider :=
  {| construct := λ _ _, true; respond := λ _ _ _, None |}.

(** The default of [similarity_threshold], the literal [0.85]. *)
Definition default_threshold : Binary64.float := Binary64.hundredths 85.

(** A translator that has just translated "Ciao mondo!". *)
Definition after_ciao (threshold : Binary64.float) : Translator :=
  (translate echo_provider (init echo_provider "it" "en" 100 threshold)
     "Ciao mondo!" true).1.2.

(** A translator whose threshold is 0.0. *)
Definition zero_threshold : Translator := after_ciao Binary64.zero.

(** [get_supported_languages]: the dictionary, as its items in order. *)
Definition get_supported_languages : list (string * string) :=
  [("en", "English"); ("it", "Italian"); ("es", "Spanish"); ("fr", "French");
   ("de", "German"); ("pt", "Portuguese"); ("ja", "Japanese"); ("ko", "Korean");
   ("zh-CN", "Chinese (Simplified)"); ("zh-TW", "Chinese (Traditional)");
   ("ru", "Russian"); ("ar", "Arabic"); ("hi", "Hindi"); ("nl", "Dutch");
   ("pl", "Polish"); ("tr", "Turkish"); ("vi", "Vietnamese"); ("th", "Thai")].

(** *** Sequences of calls on one translator *)

Inductive call :=
  | Translate (env : Provider) (text : string) (force : bool)
  | SetLanguages (env : Provider) (source target : string)
  | ClearCache.

Definition call_step (self : Translator) (c : call) : Translator :=
  match c with
  | Translate env text force => (translate env self text force).1.2
  | SetLanguages env source target => set_languages env self source target
  | ClearCache => clear_cache self
  end.

(** The translator after a sequence of calls. *)
Definition calls (self : Translator) (cs : list call) : Translator :=
  foldl call_step self cs.

(** The last pair is empty, or it is the most recently used entry of the
    cache. *)
Definition last_pair_cached (self : Translator) : Prop :=
  (_last_source_text self = EmptyString ∧ _last_translation self = EmptyString)
  ∨ (_last_source_text self ≠ EmptyString
     ∧ last (Cache.cache (cache self))
       = Some (_last_source_text self, _last_translation self)).

End Translate.

(** ** ocr.py: [OCREngine] *)

Module Ocr.

Import Utils.

Section OCREngine.
Context `{Imaging}.

(** [pytesseract.image_to_string(image, lang=.., config=..)] as one call of
    [extract_text] meets it: the text read, or [None] when it raises. *)
Record Tesseract := {
  image_to_string : Image → string → string → option string
}.

(** What a call does besides returning, in order: the runs of the OCR
    program, by page segmentation mode, and the report of an error on
    stderr. *)
Inductive event :=
  | ImageToString (psm : Z)
  | Stderr.

Record OCREngine := {
  preprocess : bool;
  _last_text : string;
  _last_image_hash : option string
}.

(** [f'--oem 3 --psm {psm}'] *)
Definition custom_config (psm : Z) : string := "--oem 3 --psm " +:+ pretty psm.

(** The choice of [psm_modes] from the shape of the processed image. *)
Definition psm_modes (processed_image : Image) : list Z :=
  let '(img_width, img_height) := size processed_image in
  let aspect_ratio :=
    if (0 <? img_width)%Z then (inject_Z img_height / inject_Z img_width)%Q
    else 1%Q in
  if negb (Qle_bool aspect_ratio (3 # 10)) then [6; 3; 7]%Z else [7; 6; 3]%Z.

(** The loop [for psm in psm_modes], from the modes still to try: the value
    of [best_text] and of [all_results] at its end, and the runs made.
    [first] is [psm_modes[0]]. *)
Fixpoint psm_loop (tess : Tesseract) (processed_image : Image) (language : string)
    (first : Z) (modes : list Z) (all_results : list (Z * string))
    : string * list (Z * string) * list event :=
  match modes with
  | [] => (EmptyString, all_results, [])
  | psm :: modes' =>
      match image_to_string tess processed_image language (custom_config psm) with
      | None =>
          let '(best_text, all_results, evs) :=
            psm_loop tess processed_image language first modes' all_results in
          (best_text, all_results, ImageToString psm :: evs)
      | Some text =>
          let text := clean_ocr_text text in
          if negb (is_empty (strip text)) then
            let all_results := Cache.od_set psm text all_results in
            if bool_decide (psm = first) then (text, all_results, [ImageToString psm])
            else
              let '(best_text, all_results, evs) :=
                psm_loop tess processed_image language first modes' all_results in
              (best_text, all_results, ImageToString psm :: evs)
          else
            let '(best_text, all_results, evs) :=
              psm_loop tess processed_image language first modes' all_results in
            (best_text, all_results, ImageToString psm :: evs)
      end
  end.

(** [max(values, key=len)]: the first of the longest values. *)
Fixpoint longest (values : list string) (best : string) : string :=
  match values with
  | [] => best
  | v :: values' => longest values' (if len best <? len v then v else best)
  end.

Definition max_by_len (values : list string) : string :=
  match values with
  | [] => EmptyString
  | v :: values' => longest values' v
  end.

(** [OCREngine.extract_text]: the text returned, the engine after the call
    and what the call did.  Every exception of [image_to_string] is caught
    inside the loop, [TesseractNotFoundError] included, and Pillow raises no
    such error, so the handler that turns it into a [RuntimeError] is never
    entered: the call always returns. *)
Definition extract_text (tess : Tesseract) (self : OCREngine) (image : Image)
    (language : string) : string * OCREngine * list event :=
  let image_hash := calculate_image_hash image in
  if bool_decide (Some image_hash = _last_image_hash self)
  then (_last_text self, self, [])
  else
    match (if preprocess self then preprocess_image_for_ocr image else Some image) with
    | None => (EmptyString, self, [Stderr])
    | Some processed_image =>
        let modes := psm_modes processed_image in
        let '(best_text, all_results, evs) :=
          psm_loop tess processed_image language (hd 0%Z modes) modes [] in
        let best_text :=
          if is_empty best_text && negb (bool_decide (all_results = []))
          then max_by_len all_results.*2 else best_text in
        (best_text,
         {| preprocess := preprocess self;
            _last_text := best_text;
            _last_image_hash := Some image_hash |},
         evs)
    end.

End OCREngine.

(** A stand-in for Pillow and hashlib, to run the engine: an image is its
    size and its raw bytes, the operations keep the bytes, and the digest is
    the byte string itself. *)
Definition plain_imaging : Imaging :=
  {| Image := Z * Z * list Byte.byte;
     tobytes := λ img, img.2;
     size := λ img, img.1;
     resize_nearest := λ img new_size, Some (new_size, img.2);
     grayscale := λ img, Some img;
     enhance_contrast := λ img _, Some img;
     md5_hexdigest := string_of_list_byte |}.

(** An OCR program that reads the same line in every image, and one that is
    not installed. *)
Definition line_reader : Tesseract (H := plain_imaging) :=
  {| image_to_string := λ _ _ _, Some "Ciao |  mondo " |}.

Definition no_tesseract : Tesseract (H := plain_imaging) :=
  {| image_to_string := λ _ _ _, None |}.

Definition fresh_engine : OCREngine :=
  {| preprocess := true; _last_text := EmptyString; _last_image_hash := None |}.

Definition frame : Image (Imaging := plain_imaging) :=
  ((200, 100)%Z, [Byte.x01; Byte.x02; Byte.x03]).

Definition same_bytes_frame : Image (Imaging := plain_imaging) :=
  ((300, 10)%Z, [Byte.x01; Byte.x02; Byte.x03]).

Section Readings.
Context `{Imaging}.

(** What one run of the OCR program contributes to [extract_text]: the
    cleaned text when the run does not raise and reads something, nothing
    otherwise. *)
Definition reading (tess : Tesseract) (processed_image : Image)
    (language : string) (psm : Z) : option string :=
  text ← image_to_string tess processed_image language (custom_config psm);
  let text := clean_ocr_text text in
  if is_empty (strip text) then None else Some text.

(** The contributions of the modes of a list, in order. *)
Definition readings (tess : Tesseract) (processed_image : Image)
    (language : string) (modes : list Z) : list string :=
  omap (reading tess processed_image language) modes.

(** The engine after a call that stored [text] for [image]. *)
Definition remember (self : OCREngine) (image : Image) (text : string) : OCREngine :=
  {| preprocess := preprocess self;
     _last_text := text;
     _last_image_hash := Some (calculate_image_hash image) |}.

End Readings.

(** The dictionary [mapping] of [map_language_to_tesseract], as its items in
    order. *)
Definition mapping : list (string * string) :=
  [("en", "eng"); ("it", "ita"); ("es", "spa"); ("fr", "fra"); ("de", "deu");
   ("pt", "por"); ("ja", "jpn"); ("ko", "kor"); ("zh-CN", "chi_sim");
   ("zh-TW", "chi_tra"); ("ru", "rus"); ("ar", "ara"); ("hi", "hin");
   ("nl", "nld"); ("pl", "pol"); ("tr", "tur"); ("vi", "vie"); ("th", "tha")].

(** [map_language_to_tesseract]: [mapping.get(lang_code, 'eng')] *)
Definition map_language_to_tesseract (lang_code : string) : string :=
  default "eng" (Cache.od_get lang_code mapping).

(** An OCR program that only works in single-line mode, and one that reads
    a longer line in automatic mode. *)
Definition single_line_reader : Tesseract (H := plain_imaging) :=
  {| image_to_string := λ _ _ config,
       if bool_decide (config = "--oem 3 --psm 7") then Some " Ciao " else None |}.

Definition fallback_reader : Tesseract (H := plain_imaging) :=
  {| image_to_string := λ _ _ config,
       if bool_decide (config = "--oem 3 --psm 7") then Some " Ciao "
       else if bool_decide (config = "--oem 3 --psm 3") then Some "Ciao |mondo"
       else Some "   " |}.

End Ocr.

(** ** gui.py: the loop over the regions *)

Module Gui.

Import Utils Ocr.

Section Regions.
Context `{Imaging}.

(** The loop [for region in self.config.regions] of
    [_do_manual_translation] and [_monitor_loop], on the one [ocr_engine] of
    the application.  [frames] are the images captured for the regions, in
    order, each with the OCR program as its call meets it.  The result is
    [text_lines], the engine after the loop, and what each call did. *)
Fixpoint ocr_regions (self : OCREngine) (frames : list (Tesseract * Image))
    (language : string) : list string * OCREngine * list (list event) :=
  match frames with
  | [] => ([], self, [])
  | (tess, image) :: frames' =>
      let '(text, self, evs) := extract_text tess self image language in
      let '(text_lines, self, evss) := ocr_regions self frames' language in
      (if negb (is_empty text) && negb (is_empty (strip text))
       then strip text :: text_lines else text_lines,
       self, evs :: evss)
  end.

(** The image can be handed to the OCR program by this engine. *)
Definition processable (self : OCREngine) (image : Image) : Prop :=
  preprocess self = false ∨ is_Some (preprocess_image_for_ocr image).

End Regions.

(** A second captured image, with other bytes than [Ocr.frame]. *)
Definition other_frame : Image (Imaging := plain_imaging) :=
  ((200, 100)%Z, [Byte.x04; Byte.x05]).

(** [" ".join(text_lines) if text_lines else ""] *)
Definition combined_text (text_lines : list string) : string :=
  match text_lines with
  | [] => EmptyString
  | _ => String.concat " " text_lines
  end.

(** [_do_manual_translation] up to the display: the combined text, and the
    call of [translate] when there is one. *)
Definition manual_translation `{Imaging} (env : Translate.Provider)
    (ocr_engine : OCREngine) (translator : Translate.Translator)
    (frames : list (Tesseract * Image)) (source_language : string)
    : string * option (option string * Translate.Translator * list Translate.event) :=
  let tesseract_lang := map_language_to_tesseract source_language in
  let '(text_lines, _, _) := ocr_regions ocr_engine frames tesseract_lang in
  let combined_text := combined_text text_lines in
  (combined_text,
   if is_empty combined_text then None
   else Some (Translate.translate env translator combined_text false)).

End Gui.

(** * Proofs *)

(** ** utils.py *)

Module UtilsFacts.

Import Utils.

Section Levenshtein.
Context {A : Type} `{EqDecision A}.

Lemma lev_nil_l (b : list A) : lev [] b = length b.
Proof. done. Qed.

Lemma lev_nil_r (a : list A) : lev a [] = length a.
Proof. by destruct a. Qed.

Lemma lev_cons (x y : A) (a b : list A) :
  lev (x :: a) (y :: b) =
    (lev a (y :: b) + 1) `min` ((lev (x :: a) b + 1) `min` (lev a b + neq_cost x y)).
Proof. done. Qed.

Lemma neq_cost_le (c1 c2 : A) : neq_cost c1 c2 ≤ 1.
Proof. unfold neq_cost. case_decide; lia. Qed.

Lemma neq_cost_same (c : A) : neq_cost c c = 0.
Proof. unfold neq_cost. by case_decide. Qed.

Lemma neq_cost_sym (c1 c2 : A) : neq_cost c1 c2 = neq_cost c2 c1.
Proof. unfold neq_cost. repeat case_decide; congruence. Qed.

Lemma lev_refl (a : list A) : lev a a = 0.
Proof.
  induction a as [|x a IH]; [done|].
  rewrite lev_cons, IH, neq_cost_same. lia.
Qed.

Lemma lev_sym (a b : list A) : lev a b = lev b a.
Proof.
  revert b. induction a as [|x a IHa]; intros b.
  - by rewrite lev_nil_r.
  - induction b as [|y b IHb]; [done|].
    rewrite !lev_cons, IHb, !IHa, (neq_cost_sym x y). lia.
Qed.

Lemma lev_le_max (a b : list A) : lev a b ≤ length a `max` length b.
Proof.
  revert b. induction a as [|x a IHa]; intros b; [simpl; lia|].
  destruct b as [|y b]; [simpl; lia|].
  rewrite lev_cons. specialize (IHa b). pose proof (neq_cost_le x y).
  simpl. lia.
Qed.

(** *** The rolling rows compute the recurrence *)

Local Arguments lev : simpl never.

Lemma row_of_lookup (ra s2 : list A) k :
  k ≤ length s2 → row_of ra s2 !! k = Some (lev ra (reverse (take k s2))).
Proof.
  intros Hk. unfold row_of.
  rewrite list_lookup_fmap, lookup_seq_lt by lia. done.
Qed.

Lemma row_of_nil (s2 : list A) : row_of [] s2 = seq 0 (length s2 + 1).
Proof.
  unfold row_of. replace (length s2 + 1) with (S (length s2)) by lia.
  apply list_eq. intros k. rewrite list_lookup_fmap.
  destruct (decide (k < S (length s2))) as [Hk|Hk].
  - rewrite lookup_seq_lt by done. simpl.
    rewrite lev_nil_l, length_reverse, length_take. f_equal. lia.
  - by rewrite lookup_seq_ge by lia.
Qed.

Lemma inner_loop_spec (c1 : A) (ra s2 rest : list A) : ∀ j cur,
  drop j s2 = rest →
  j ≤ length s2 →
  cur = (λ k, lev (c1 :: ra) (reverse (take k s2))) <$> seq 0 (S j) →
  inner_loop c1 rest j (row_of ra s2) cur = Some (row_of (c1 :: ra) s2).
Proof.
  induction rest as [|c2 rest IH]; intros j cur Hdrop Hj ->.
  - simpl. assert (length s2 ≤ j) as Hlen.
    { apply (f_equal length) in Hdrop. rewrite length_drop in Hdrop.
      simpl in Hdrop. lia. }
    unfold row_of. by replace j with (length s2) by lia.
  - assert (s2 !! j = Some c2) as Hc2.
    { rewrite <- (Nat.add_0_r j), <- lookup_drop, Hdrop. done. }
    pose proof (lookup_lt_Some _ _ _ Hc2) as Hlt.
    cbn [inner_loop].
    rewrite (row_of_lookup ra s2 (j + 1)) by lia.
    rewrite (row_of_lookup ra s2 j) by lia.
    rewrite list_lookup_fmap, lookup_seq_lt by lia.
    cbn [mbind option_bind]. apply IH.
    + replace (S j) with (j + 1) by lia.
      rewrite <- drop_drop, Hdrop. done.
    + lia.
    + rewrite (seq_S (S j) 0), fmap_app. f_equal. simpl. f_equal.
      rewrite (take_S_r s2 j c2) by done.
      rewrite reverse_snoc, lev_cons.
      replace (j + 1) with (S j) by lia.
      rewrite (take_S_r s2 j c2) by done.
      rewrite reverse_snoc. done.
Qed.

Lemma outer_loop_spec (s2 rest : list A) : ∀ i (ra : list A),
  length ra = i →
  outer_loop rest i s2 (row_of ra s2) = Some (row_of (reverse rest ++ ra) s2).
Proof.
  induction rest as [|c1 rest IH]; intros i ra Hi; [done|].
  cbn [outer_loop].
  rewrite (inner_loop_spec c1 ra s2 s2 0 [i + 1]); [| done | lia |].
  - simpl. rewrite (IH (S i) (c1 :: ra)) by (simpl; lia).
    by rewrite reverse_cons, <- app_assoc.
  - simpl. rewrite take_0, reverse_nil, lev_nil_r. simpl. f_equal. lia.
Qed.

Lemma levenshtein_rows_lev (s1 s2 : list A) :
  levenshtein_rows s1 s2 = Some (lev (reverse s1) (reverse s2)).
Proof.
  unfold levenshtein_rows. case_decide as Hlen.
  - apply nil_length_inv in Hlen as ->.
    by rewrite reverse_nil, lev_nil_r, length_reverse.
  - rewrite <- row_of_nil, (outer_loop_spec s2 s1 0 []) by done.
    simpl. rewrite app_nil_r. unfold row_of.
    rewrite seq_S, fmap_app. cbn [fmap list_fmap]. rewrite last_snoc.
    simpl. by rewrite firstn_all.
Qed.

Lemma levenshtein_distance_lev (s1 s2 : list A) :
  levenshtein_distance s1 s2 = Some (lev (reverse s1) (reverse s2)).
Proof.
  unfold levenshtein_distance. case_decide.
  - by rewrite levenshtein_rows_lev, lev_sym.
  - apply levenshtein_rows_lev.
Qed.

(** *** The recurrence is the length of a shortest edit script *)

Lemma edit_cons (h : A) a b : edit a b → edit (h :: a) (h :: b).
Proof.
  destruct 1 as [l c r|l c r|l c c' r].
  - apply (edit_insert (h :: l)).
  - apply (edit_delete (h :: l)).
  - apply (edit_substitute (h :: l)).
Qed.

Lemma edits_cons (h : A) n a b : edits n a b → edits n (h :: a) (h :: b).
Proof.
  induction 1 as [a|n a b c Hab _ IH]; [constructor|].
  eapply edits_step; [apply edit_cons, Hab | apply IH].
Qed.

Lemma edit_reverse (a b : list A) : edit a b → edit (reverse a) (reverse b).
Proof.
  destruct 1 as [l c r|l c r|l c c' r];
    rewrite !reverse_app, ?reverse_cons, <- ?app_assoc; simpl; constructor.
Qed.

Lemma edits_reverse n (a b : list A) : edits n a b → edits n (reverse a) (reverse b).
Proof.
  induction 1 as [a|n a b c Hab _ IH]; [constructor|].
  eapply edits_step; [apply edit_reverse, Hab | apply IH].
Qed.

Lemma edits_from_nil (b : list A) : edits (length b) [] b.
Proof.
  induction b as [|y b IH]; [constructor|].
  simpl. eapply edits_step; [apply (edit_insert [] y []) | by apply edits_cons].
Qed.

Lemma edits_to_nil (a : list A) : edits (length a) a [].
Proof.
  induction a as [|x a IH]; [constructor|].
  simpl. eapply edits_step; [apply (edit_delete [] x a) | done].
Qed.

(** Upper bound: the recurrence is reached by an actual script. *)
Lemma edits_lev (a : list A) : ∀ b, edits (lev a b) a b.
Proof.
  induction a as [|x a IHa]; intros b; [apply edits_from_nil|].
  induction b as [|y b IHb].
  - rewrite lev_nil_r. apply edits_to_nil.
  - rewrite lev_cons.
    destruct (Nat.min_spec (lev a (y :: b) + 1)
                ((lev (x :: a) b + 1) `min` (lev a b + neq_cost x y)))
      as [[_ ->]|[_ ->]].
    + rewrite Nat.add_1_r.
      eapply edits_step; [apply (edit_delete [] x a) | apply IHa].
    + destruct (Nat.min_spec (lev (x :: a) b + 1) (lev a b + neq_cost x y))
        as [[_ ->]|[_ ->]].
      * rewrite Nat.add_1_r.
        eapply edits_step; [apply (edit_insert [] y (x :: a)) |].
        by apply edits_cons.
      * unfold neq_cost. case_decide as Hxy.
        -- subst y. rewrite Nat.add_0_r. apply edits_cons, IHa.
        -- rewrite Nat.add_1_r.
           eapply edits_step; [apply (edit_substitute [] x y a) |].
           apply edits_cons, IHa.
Qed.

(** Lower bound: one edit changes the recurrence by at most one. *)
Lemma lev_delete_head (x : A) a c : lev (x :: a) c ≤ S (lev a c).
Proof.
  destruct c as [|z c]; [rewrite !lev_nil_r; simpl; lia|].
  rewrite lev_cons. lia.
Qed.

Lemma lev_insert_right (z : A) a c : lev a (z :: c) ≤ S (lev a c).
Proof. rewrite (lev_sym a (z :: c)), (lev_sym a c). apply lev_delete_head. Qed.

Lemma lev_insert_head (x : A) a c : lev a c ≤ S (lev (x :: a) c).
Proof.
  induction c as [|z c IH]; [rewrite !lev_nil_r; simpl; lia|].
  rewrite lev_cons. pose proof (lev_insert_right z a c). lia.
Qed.

Lemma lev_substitute_head (x y : A) a c : lev (x :: a) c ≤ S (lev (y :: a) c).
Proof.
  induction c as [|z c IH]; [rewrite !lev_nil_r; simpl; lia|].
  rewrite !lev_cons. pose proof (neq_cost_le x z). lia.
Qed.

Lemma lev_cons_congr (h : A) s t :
  (∀ c, lev s c ≤ S (lev t c)) → ∀ c, lev (h :: s) c ≤ S (lev (h :: t) c).
Proof.
  intros Hst c. induction c as [|z c IH].
  - specialize (Hst []). rewrite !lev_nil_r in *. simpl. lia.
  - rewrite !lev_cons. pose proof (Hst (z :: c)). pose proof (Hst c). lia.
Qed.

Lemma lev_app_congr (l s t : list A) :
  (∀ c, lev s c ≤ S (lev t c)) → ∀ c, lev (l ++ s) c ≤ S (lev (l ++ t) c).
Proof.
  intros Hst. induction l as [|h l IH]; [done|].
  simpl. by apply lev_cons_congr.
Qed.

Lemma edit_lev (a b : list A) : edit a b → ∀ c, lev a c ≤ S (lev b c).
Proof.
  destruct 1 as [l x r|l x r|l x y r]; apply lev_app_congr; intros c.
  - apply lev_insert_head.
  - apply lev_delete_head.
  - apply lev_substitute_head.
Qed.

Lemma edits_lower n (a b : list A) : edits n a b → lev a b ≤ n.
Proof.
  induction 1 as [a|n a b c Hab _ IH]; [by rewrite lev_refl|].
  pose proof (edit_lev a b Hab c). lia.
Qed.

(** The distance the code returns, as a total function. *)
Lemma levenshtein_distance_total (s1 s2 : list A) :
  ∃ d, levenshtein_distance s1 s2 = Some d ∧ d ≤ length s1 `max` length s2.
Proof.
  eexists. split; [apply levenshtein_distance_lev|].
  pose proof (lev_le_max (reverse s1) (reverse s2)) as Hle.
  by rewrite !length_reverse in Hle.
Qed.

Lemma levenshtein_distance_edits (s1 s2 : list A) d :
  levenshtein_distance s1 s2 = Some d →
  edits d s1 s2 ∧ ∀ n, edits n s1 s2 → d ≤ n.
Proof.
  rewrite levenshtein_distance_lev. intros [= <-]. split.
  - rewrite <- (reverse_involutive s1) at 2.
    rewrite <- (reverse_involutive s2) at 2.
    apply edits_reverse, edits_lev.
  - intros n Hn. by apply edits_lower, edits_reverse.
Qed.

End Levenshtein.

Example clean_ocr_text_example :
  clean_ocr_text "  Ciao |   mondo  " = "Ciao I mondo".
Proof. reflexivity. Qed.

Example similarity_example :
  calculate_text_similarity_levenshtein "Ciao!" " ciao" = Some (1 - ratio 1 5)%Q.
Proof. reflexivity. Qed.

(** *** Facts on the similarity *)

Lemma length_list_ascii_of_string s : length (list_ascii_of_string s) = len s.
Proof. induction s as [|c s IH]; simpl; [done | by rewrite IH]. Qed.

Lemma is_empty_true s : is_empty s = true ↔ s = EmptyString.
Proof. unfold is_empty. by rewrite bool_decide_eq_true. Qed.

Lemma is_empty_false s : is_empty s = false ↔ s ≠ EmptyString.
Proof. unfold is_empty. by rewrite bool_decide_eq_false. Qed.

Lemma inject_nat_pos m : 0 < m → (0 < inject_Z (Z.of_nat m))%Q.
Proof. intros Hm. change 0%Q with (inject_Z 0). rewrite <- Zlt_Qlt. lia. Qed.

Lemma ratio_bounds d m : d ≤ m → 0 < m → (0 <= ratio d m <= 1)%Q.
Proof.
  intros Hd Hm. pose proof (inject_nat_pos m Hm) as Hpos. unfold ratio. split.
  - apply Qle_shift_div_l; [done|]. rewrite Qmult_0_l.
    change 0%Q with (inject_Z 0). rewrite <- Zle_Qle. lia.
  - apply Qle_shift_div_r; [done|]. rewrite Qmult_1_l.
    rewrite <- Zle_Qle. lia.
Qed.

Lemma ratio_same m : 0 < m → (ratio m m == 1)%Q.
Proof.
  intros Hm. unfold ratio, Qdiv. apply Qmult_inv_r.
  pose proof (inject_nat_pos m Hm). lra.
Qed.

(** The distance between two strings never raises and is at most the
    longer length. *)
Lemma string_distance t1 t2 :
  ∃ d, levenshtein_distance (list_ascii_of_string t1) (list_ascii_of_string t2) = Some d
       ∧ d ≤ len t1 `max` len t2.
Proof.
  destruct (levenshtein_distance_total (list_ascii_of_string t1) (list_ascii_of_string t2))
    as (d & Hd & Hle).
  exists d. by rewrite !length_list_ascii_of_string in Hle.
Qed.


Lemma similarity_empty_l text2 :
  calculate_text_similarity_levenshtein EmptyString text2 = Some 0%Q.
Proof. done. Qed.

Lemma similarity_empty_r text1 :
  calculate_text_similarity_levenshtein text1 EmptyString = Some 0%Q.
Proof.
  unfold calculate_text_similarity_levenshtein. cbn. by rewrite orb_true_r.
Qed.

(** C5: [levenshtein_distance] is total and returns the least number of
    single-character insertions, deletions and substitutions that turn [a]
    into [b]; the distance from [a] to itself is 0 and to the empty string
    [len(a)]. *)
Theorem levenshtein_distance_minimal_edits {A : Type} `{EqDecision A} (a b : list A) :
  (∃ d, levenshtein_distance a b = Some d
        ∧ edits d a b
        ∧ ∀ n, edits n a b → d ≤ n)
  ∧ levenshtein_distance a a = Some 0
  ∧ levenshtein_distance a [] = Some (length a).
Proof.
  split_and!.
  - destruct (levenshtein_distance_total a b) as (d & Hd & _).
    exists d. split; [done|]. by apply levenshtein_distance_edits.
  - by rewrite levenshtein_distance_lev, lev_refl.
  - by rewrite levenshtein_distance_lev, reverse_nil, lev_nil_r, length_reverse.
Qed.


Lemma similarity_one_side_blank t1 t2 text1 text2 :
  lower (strip text1) = t1 → lower (strip text2) = t2 →
  (t1 = EmptyString ∧ t2 ≠ EmptyString) ∨ (t1 ≠ EmptyString ∧ t2 = EmptyString) →
  ∃ q, calculate_text_similarity_levenshtein text1 text2 = Some q ∧ (q == 0)%Q.
Proof.
  intros H1 H2 Hone. unfold calculate_text_similarity_levenshtein.
  destruct (is_empty text1 || is_empty text2); [by exists 0%Q|].
  rewrite H1, H2.
  rewrite bool_decide_eq_false_2
    by (intros Heq; destruct Hone as [[? ?]|[? ?]]; congruence).
  rewrite levenshtein_distance_lev. cbn [mbind option_bind].
  assert (lev (reverse (list_ascii_of_string t1)) (reverse (list_ascii_of_string t2))
          = len t1 `max` len t2 ∧ len t1 `max` len t2 ≠ 0) as [-> Hmax].
  { destruct Hone as [[-> Hne]|[Hne ->]];
      change (reverse (list_ascii_of_string EmptyString)) with (@nil ascii).
    - rewrite lev_nil_l, length_reverse, length_list_ascii_of_string.
      split; [done|]. destruct t2; simpl; [done|lia].
    - rewrite lev_nil_r, length_reverse, length_list_ascii_of_string.
      change (len EmptyString) with 0. split; [lia|].
      destruct t1; simpl; [done|lia]. }
  rewrite bool_decide_eq_false_2 by done.
  eexists. split; [done|]. rewrite ratio_same by lia. lra.
Qed.

(** The paths on which the empty-input rule holds: the similarity is 0 when
    an input is empty as given, and when exactly one of them is empty after
    normalization. *)
Lemma similarity_empty_or_one_blank (text1 text2 : string) :
  let t1 := lower (strip text1) in
  let t2 := lower (strip text2) in
  (text1 = EmptyString ∨ text2 = EmptyString →
     calculate_text_similarity_levenshtein text1 text2 = Some 0%Q)
  ∧ ((t1 = EmptyString ∧ t2 ≠ EmptyString) ∨ (t1 ≠ EmptyString ∧ t2 = EmptyString) →
     ∃ q, calculate_text_similarity_levenshtein text1 text2 = Some q ∧ (q == 0)%Q).
Proof.
  intros t1 t2. split.
  - intros [-> | ->]; [apply similarity_empty_l | apply similarity_empty_r].
  - by apply similarity_one_side_blank.
Qed.

(** The guard [if max_len == 0: return 0.0] of lines 91-92 is never reached
    with [max_len = 0]: it comes after the shortcut for equal texts, and two
    texts that differ are not both empty. *)
Lemma max_len_guard_is_dead (t1 t2 : string) :
  t1 ≠ t2 → len t1 `max` len t2 ≠ 0.
Proof. destruct t1, t2; simpl; [done|lia..]. Qed.

(** C6 fails on the code: two blank inputs are both empty after
    normalization and their similarity is 1, not 0; with one of the two
    replaced by the empty string, or by a text that is not blank, it
    is 0. *)
Lemma similarity_of_two_blanks :
  lower (strip " ") = EmptyString
  ∧ calculate_text_similarity_levenshtein " " " " = Some 1%Q
  ∧ ¬ (1 == 0)%Q.
Proof. split_and!; [done..|]. intros H. discriminate H. Qed.

(** *** The distance is a metric *)

Section LevenshteinMetric.
Context {A : Type} `{EqDecision A}.

Lemma edits_app n m (a b c : list A) :
  edits n a b → edits m b c → edits (n + m) a c.
Proof.
  induction 1 as [a|n a a' b Hstep _ IH]; intros Hbc; [done|].
  simpl. eapply edits_step; [exact Hstep | by apply IH].
Qed.

Lemma edits_zero (a b : list A) : edits 0 a b → a = b.
Proof. by inversion 1. Qed.

Lemma edit_length (a b : list A) :
  edit a b → length a ≤ S (length b) ∧ length b ≤ S (length a).
Proof. destruct 1; rewrite !length_app; simpl; lia. Qed.

Lemma edits_length n (a b : list A) :
  edits n a b → length a ≤ length b + n ∧ length b ≤ length a + n.
Proof.
  induction 1 as [a|n a a' b Hstep _ IH]; [lia|].
  apply edit_length in Hstep. lia.
Qed.

(** The recurrence is the only number that is reached by a script and is
    below every script. *)
Lemma lev_least (a b : list A) d :
  edits d a b → (∀ n, edits n a b → d ≤ n) → lev a b = d.
Proof.
  intros Hd Hmin. apply Nat.le_antisymm.
  - by apply edits_lower.
  - apply Hmin, edits_lev.
Qed.

Lemma lev_reverse (a b : list A) : lev (reverse a) (reverse b) = lev a b.
Proof.
  symmetry. apply lev_least.
  - rewrite <- (reverse_involutive a) at 2.
    rewrite <- (reverse_involutive b) at 2.
    apply edits_reverse, edits_lev.
  - intros n Hn. by apply edits_lower, edits_reverse.
Qed.

Lemma levenshtein_distance_is_lev (a b : list A) :
  levenshtein_distance a b = Some (lev a b).
Proof. by rewrite levenshtein_distance_lev, lev_reverse. Qed.

Lemma lev_cons_same (x : A) a b : lev (x :: a) (x :: b) = lev a b.
Proof.
  rewrite lev_cons, neq_cost_same, Nat.add_0_r.
  pose proof (lev_insert_head x a (x :: b)).
  pose proof (lev_delete_head x a (x :: b)).
  pose proof (lev_insert_right x a b).
  pose proof (lev_insert_head x a b).
  pose proof (lev_insert_right x (x :: a) b).
  rewrite (lev_sym (x :: a) b) in *.
  pose proof (lev_insert_right x b a) as Hb.
  rewrite (lev_sym b (x :: a)), (lev_sym b a) in Hb.
  pose proof (lev_insert_head x b a) as Hb'.
  rewrite (lev_sym b a), (lev_sym (x :: b) a) in Hb'.
  lia.
Qed.

Lemma lev_app_prefix (p a b : list A) : lev (p ++ a) (p ++ b) = lev a b.
Proof.
  induction p as [|x p IH]; [done|].
  by rewrite <- !app_comm_cons, lev_cons_same.
Qed.

Lemma lev_app_suffix (s a b : list A) : lev (a ++ s) (b ++ s) = lev a b.
Proof.
  rewrite <- lev_reverse, !reverse_app, lev_app_prefix. apply lev_reverse.
Qed.

Lemma lev_zero (a b : list A) : lev a b = 0 → a = b.
Proof. intros Hd. apply edits_zero. rewrite <- Hd. apply edits_lev. Qed.

(** X1: the distance is symmetric. *)
Theorem levenshtein_distance_symmetric (a b : list A) :
  levenshtein_distance a b = levenshtein_distance b a.
Proof. by rewrite !levenshtein_distance_is_lev, lev_sym. Qed.

(** X2: the distance is 0 exactly between equal strings. *)
Theorem levenshtein_distance_zero_iff_equal (a b : list A) :
  levenshtein_distance a b = Some 0 ↔ a = b.
Proof.
  rewrite levenshtein_distance_is_lev. split.
  - intros [= Hd]. by apply lev_zero.
  - intros ->. by rewrite lev_refl.
Qed.

(** X3: the triangle inequality: going through a third string never costs
    less than the direct distance. *)
Theorem levenshtein_distance_triangle (a b c : list A) :
  ∃ dab dbc dac,
    levenshtein_distance a b = Some dab
    ∧ levenshtein_distance b c = Some dbc
    ∧ levenshtein_distance a c = Some dac
    ∧ dac ≤ dab + dbc.
Proof.
  exists (lev a b), (lev b c), (lev a c).
  rewrite !levenshtein_distance_is_lev. split_and!; [done..|].
  apply edits_lower. eapply edits_app; apply edits_lev.
Qed.

(** X4: the distance is at least the difference of the two lengths. *)
Theorem levenshtein_distance_length_difference (a b : list A) :
  ∃ d, levenshtein_distance a b = Some d
       ∧ length a - length b ≤ d
       ∧ length b - length a ≤ d.
Proof.
  exists (lev a b). rewrite levenshtein_distance_is_lev. split; [done|].
  pose proof (edits_length _ _ _ (edits_lev a b)). lia.
Qed.

(** X5: a common prefix and a common suffix do not count. *)
Theorem levenshtein_distance_common_affixes (p s a b : list A) :
  levenshtein_distance (p ++ a ++ s) (p ++ b ++ s) = levenshtein_distance a b.
Proof.
  by rewrite !levenshtein_distance_is_lev, lev_app_prefix, lev_app_suffix.
Qed.

End LevenshteinMetric.

(** *** Normalization *)

Lemma isspace_lower_char c : isspace (lower_char c) = isspace c.
Proof. destruct c as [[] [] [] [] [] [] [] []]; reflexivity. Qed.

Lemma lower_char_idempotent c : lower_char (lower_char c) = lower_char c.
Proof. destruct c as [[] [] [] [] [] [] [] []]; reflexivity. Qed.

Lemma lower_idempotent s : lower (lower s) = lower s.
Proof.
  induction s as [|c s IH]; [done|]. simpl.
  by rewrite lower_char_idempotent, IH.
Qed.

Lemma lower_empty s : lower s = EmptyString ↔ s = EmptyString.
Proof. by destruct s. Qed.

Lemma len_lower s : len (lower s) = len s.
Proof. induction s as [|c s IH]; [done|]. simpl. by rewrite IH. Qed.

Lemma lstrip_lower s : lstrip (lower s) = lower (lstrip s).
Proof.
  induction s as [|c s IH]; [done|]. simpl.
  rewrite isspace_lower_char. by destruct (isspace c).
Qed.

Lemma rstrip_lower s : rstrip (lower s) = lower (rstrip s).
Proof.
  induction s as [|c s IH]; [done|]. simpl.
  rewrite IH, isspace_lower_char.
  destruct (rstrip s); simpl; [by destruct (isspace c)|done].
Qed.

Lemma strip_lower s : strip (lower s) = lower (strip s).
Proof. unfold strip. by rewrite lstrip_lower, rstrip_lower. Qed.

Lemma lstrip_starts_clean s : starts_clean (lstrip s).
Proof.
  induction s as [|c s IH]; [done|]. simpl.
  by destruct (isspace c) eqn:Hc.
Qed.

Lemma lstrip_clean s : starts_clean s → lstrip s = s.
Proof. destruct s as [|c s]; [done|]. simpl. by intros ->. Qed.

Lemma rstrip_starts_clean s : starts_clean s → starts_clean (rstrip s).
Proof.
  destruct s as [|c s]; [done|]. simpl. intros Hc.
  destruct (rstrip s); [by rewrite Hc|done].
Qed.

Lemma rstrip_idempotent s : rstrip (rstrip s) = rstrip s.
Proof.
  induction s as [|c s IH]; [done|]. simpl.
  destruct (rstrip s) as [|c' r] eqn:Hr.
  - destruct (isspace c) eqn:Hc; [done|]. simpl. by rewrite Hc.
  - change (rstrip (String c (String c' r)))
      with (match rstrip (String c' r) with
            | EmptyString => if isspace c then EmptyString else String c EmptyString
            | r' => String c r'
            end).
    by rewrite IH.
Qed.

Lemma strip_starts_clean s : starts_clean (strip s).
Proof. apply rstrip_starts_clean, lstrip_starts_clean. Qed.

Lemma strip_idempotent s : strip (strip s) = strip s.
Proof.
  unfold strip at 1. rewrite lstrip_clean by apply strip_starts_clean.
  apply rstrip_idempotent.
Qed.

Lemma strip_not_empty s : strip s ≠ EmptyString → s ≠ EmptyString.
Proof. by intros Hs ->. Qed.

Lemma list_ascii_of_string_inj s1 s2 :
  list_ascii_of_string s1 = list_ascii_of_string s2 → s1 = s2.
Proof.
  intros Heq. rewrite <- (string_of_list_ascii_of_string s1),
    <- (string_of_list_ascii_of_string s2). by rewrite Heq.
Qed.

Lemma ratio_pos d m : 0 < d → 0 < m → (0 < ratio d m)%Q.
Proof.
  intros Hd Hm. unfold ratio. apply Qlt_shift_div_l.
  - by apply inject_nat_pos.
  - rewrite Qmult_0_l. by apply inject_nat_pos.
Qed.

Lemma lev_matches t1 t2 :
  lev (list_ascii_of_string t1) (list_ascii_of_string t2) + matches t1 t2
  ≤ len t1 `max` len t2.
Proof.
  revert t2. induction t1 as [|c1 t1 IH]; intros [|c2 t2].
  - simpl. lia.
  - simpl. rewrite length_list_ascii_of_string. unfold len. lia.
  - cbn [list_ascii_of_string matches]. rewrite lev_nil_r. simpl.
    rewrite length_list_ascii_of_string. unfold len. lia.
  - specialize (IH t2). cbn [list_ascii_of_string matches].
    unfold len in *. cbn [String.length].
    rewrite lev_cons. unfold neq_cost.
    case_bool_decide; case_decide; try done; lia.
Qed.

(** X6: the similarity is symmetric. *)
Theorem similarity_symmetric (text1 text2 : string) :
  calculate_text_similarity_levenshtein text1 text2
  = calculate_text_similarity_levenshtein text2 text1.
Proof.
  unfold calculate_text_similarity_levenshtein.
  rewrite (orb_comm (is_empty text1)).
  destruct (is_empty text2 || is_empty text1); [done|].
  destruct (decide (lower (strip text1) = lower (strip text2))) as [Heq|Hne].
  - rewrite (bool_decide_eq_true_2 _ Heq).
    by rewrite (bool_decide_eq_true_2 _ (eq_sym Heq)).
  - rewrite (bool_decide_eq_false_2 _ Hne).
    rewrite (bool_decide_eq_false_2 (lower (strip text2) = lower (strip text1)))
      by congruence.
    rewrite !levenshtein_distance_is_lev.
    rewrite (lev_sym (list_ascii_of_string (lower (strip text1)))).
    by rewrite (Nat.max_comm (len (lower (strip text1)))).
Qed.

(** X7: the similarity is 1 exactly when both inputs are non-empty and equal
    after normalization. *)
Theorem similarity_one_iff_same_normalized (text1 text2 : string) :
  (∃ q, calculate_text_similarity_levenshtein text1 text2 = Some q ∧ (q == 1)%Q)
  ↔ text1 ≠ EmptyString ∧ text2 ≠ EmptyString
    ∧ lower (strip text1) = lower (strip text2).
Proof.
  unfold calculate_text_similarity_levenshtein. split.
  - intros (q & Hq & Hone).
    destruct (is_empty text1) eqn:H1; [simpl in Hq; injection Hq as <-; lra|].
    destruct (is_empty text2) eqn:H2; [simpl in Hq; injection Hq as <-; lra|].
    apply is_empty_false in H1, H2. split_and!; [done..|].
    simpl in Hq. case_bool_decide as Heq; [done|]. exfalso.
    rewrite levenshtein_distance_is_lev in Hq. cbn [mbind option_bind] in Hq.
    case_bool_decide as Hmax; [injection Hq as <-; lra|].
    injection Hq as <-.
    assert (0 < lev (list_ascii_of_string (lower (strip text1)))
                  (list_ascii_of_string (lower (strip text2)))) as Hpos.
    { apply Nat.neq_0_lt_0. intros Hzero. apply Heq, list_ascii_of_string_inj.
      by apply lev_zero. }
    apply Nat.neq_0_lt_0 in Hmax.
    pose proof (ratio_pos _ _ Hpos Hmax). lra.
  - intros (H1 & H2 & Heq). apply is_empty_false in H1, H2.
    rewrite H1, H2. simpl. rewrite bool_decide_eq_true_2 by done.
    by exists 1%Q.
Qed.

(** X8: normalizing an input that is not blank beforehand does not change
    the similarity: case and outer whitespace are ignored. *)
Theorem similarity_ignores_case_and_outer_space (text1 text2 : string) :
  strip text1 ≠ EmptyString →
  calculate_text_similarity_levenshtein (lower (strip text1)) text2
  = calculate_text_similarity_levenshtein text1 text2.
Proof.
  intros Hne. unfold calculate_text_similarity_levenshtein.
  assert (is_empty text1 = false) as ->
    by by apply is_empty_false, strip_not_empty.
  assert (is_empty (lower (strip text1)) = false) as ->.
  { apply is_empty_false. by rewrite lower_empty. }
  by rewrite strip_lower, lower_idempotent, strip_idempotent.
Qed.

Lemma similarity_ignores_case_and_outer_space_witness :
  strip "  CIAO Mondo " ≠ EmptyString
  ∧ calculate_text_similarity_levenshtein (lower (strip "  CIAO Mondo ")) "ciao mando"
    = calculate_text_similarity_levenshtein "  CIAO Mondo " "ciao mando"
  ∧ calculate_text_similarity_levenshtein "  CIAO Mondo " "ciao mando"
    = Some (1 - ratio 1 10)%Q.
Proof.
  split_and!; [done| |reflexivity].
  apply (similarity_ignores_case_and_outer_space "  CIAO Mondo " "ciao mando").
  done.
Defined.

(** X9: the two similarity functions divide by the same [max_len], and
    what they count fits in it together: the number of positions at which
    two strings agree, plus their edit distance, is at most the longer
    length.  The position-wise similarity [calculate_text_similarity] lies in
    [[0, 1]]. *)
Theorem matches_and_distance_within_max_len (text1 text2 : string) :
  (∃ distance,
     levenshtein_distance (list_ascii_of_string text1) (list_ascii_of_string text2)
     = Some distance
     ∧ matches text1 text2 + distance ≤ len text1 `max` len text2)
  ∧ (0 <= calculate_text_similarity text1 text2 <= 1)%Q.
Proof.
  split.
  - rewrite levenshtein_distance_is_lev. eexists. split; [done|].
    pose proof (lev_matches text1 text2). lia.
  - unfold calculate_text_similarity.
    destruct (is_empty text1 || is_empty text2); [lra|].
    case_bool_decide; [lra|].
    case_bool_decide as Hmax; [lra|].
    pose proof (lev_matches (lower (strip text1)) (lower (strip text2))) as Hsum.
    apply ratio_bounds; lia.
Qed.

(** *** [clean_ocr_text] *)

Lemma chars_app s1 s2 : chars (s1 +:+ s2) = chars s1 ++ chars s2.
Proof. induction s1 as [|c s1 IH]; [done|]. simpl. by rewrite IH. Qed.

Lemma lstrip_chars c s : c ∈ chars (lstrip s) → c ∈ chars s.
Proof.
  induction s as [|c' s IH]; [done|]. simpl.
  destruct (isspace c'); [|done]. intros Hc. right. by apply IH.
Qed.

Lemma rstrip_chars c s : c ∈ chars (rstrip s) → c ∈ chars s.
Proof.
  induction s as [|c' s IH]; [done|]. simpl.
  destruct (rstrip s) as [|c'' r].
  - destruct (isspace c'); [by intros ?%elem_of_nil|].
    simpl. intros [->|?%elem_of_nil]%elem_of_cons; [left|done].
  - cbn [chars list_ascii_of_string].
    intros [->|Hc]%elem_of_cons; [left|right]. by apply IH.
Qed.

Lemma strip_chars c s : c ∈ chars (strip s) → c ∈ chars s.
Proof. intros Hc. by apply lstrip_chars, rstrip_chars. Qed.

Lemma replace_from_chars old new skip s c :
  c ∈ chars (replace_from old new skip s) → c ∈ chars s ∨ c ∈ chars new.
Proof.
  revert skip. induction s as [|c' s IH]; intros skip; [by left|].
  cbn [replace_from]. destruct skip as [|k].
  - destruct (String.prefix old (String c' s)).
    + rewrite chars_app, elem_of_app. intros [Hc|Hc]; [by right|].
      destruct (IH _ Hc) as [?|?]; [left; by right|by right].
    + cbn [chars list_ascii_of_string].
      intros [->|Hc]%elem_of_cons; [left; left|].
      destruct (IH _ Hc) as [?|?]; [left; by right|by right].
  - intros Hc. destruct (IH _ Hc) as [?|?]; [left; by right|by right].
Qed.

Lemma prefix_one_char a s :
  String.prefix (String a EmptyString) s
  = match s with String b _ => bool_decide (a = b) | EmptyString => false end.
Proof.
  destruct s as [|b s]; [done|]. simpl.
  destruct (ascii_dec a b) as [->|Hne].
  - rewrite bool_decide_eq_true_2 by done. by destruct s.
  - by rewrite bool_decide_eq_false_2.
Qed.

Lemma replace_one_char_gone a new s :
  a ∉ chars new → a ∉ chars (replace (String a EmptyString) new s).
Proof.
  intros Hnew. unfold replace. induction s as [|c s IH]; [apply not_elem_of_nil|].
  cbn [replace_from]. rewrite prefix_one_char. case_bool_decide as Hc.
  - cbn [String.length Nat.sub]. rewrite chars_app, not_elem_of_app. done.
  - cbn [chars list_ascii_of_string]. rewrite not_elem_of_cons. done.
Qed.

Lemma strip_empty_lstrip s : strip s = EmptyString ↔ lstrip s = EmptyString.
Proof.
  unfold strip. pose proof (lstrip_starts_clean s) as Hclean.
  destruct (lstrip s) as [|c r]; [done|]. simpl in *.
  destruct (rstrip r); [by rewrite Hclean|done].
Qed.

Lemma split_from_blank s word :
  lstrip s = EmptyString →
  split_from s word = if is_empty word then [] else [word].
Proof.
  revert word. induction s as [|c s IH]; intros word; [done|]. simpl.
  destruct (isspace c); [|done]. intros Hs.
  rewrite (IH EmptyString Hs). by destruct (is_empty word).
Qed.

Lemma starts_clean_app s1 s2 :
  s1 ≠ EmptyString → starts_clean s1 → starts_clean (s1 +:+ s2) ∧ s1 +:+ s2 ≠ EmptyString.
Proof. by destruct s1. Qed.

Lemma split_from_word s word :
  (word ≠ EmptyString ∧ starts_clean word)
  ∨ (word = EmptyString ∧ lstrip s ≠ EmptyString) →
  ∃ w ws, split_from s word = w :: ws ∧ w ≠ EmptyString ∧ starts_clean w.
Proof.
  revert word. induction s as [|c s IH]; intros word Hword.
  - destruct Hword as [[Hne Hclean]|[_ ?]]; [|done]. simpl.
    apply is_empty_false in Hne as Hne'. rewrite Hne'. by exists word, [].
  - simpl. destruct (isspace c) eqn:Hc.
    + destruct Hword as [[Hne Hclean]|[-> Hs]].
      * apply is_empty_false in Hne as Hne'. rewrite Hne'. by eexists _, _.
      * simpl in Hs. rewrite Hc in Hs. simpl. apply IH. by right.
    + apply IH. left. destruct Hword as [[Hne Hclean]|[-> _]].
      * destruct (starts_clean_app word (String c EmptyString) Hne Hclean). done.
      * done.
Qed.

Lemma concat_starts_clean sep w ws :
  w ≠ EmptyString → starts_clean w →
  String.concat sep (w :: ws) ≠ EmptyString ∧ starts_clean (String.concat sep (w :: ws)).
Proof.
  intros Hne Hclean. destruct ws as [|w' ws]; [done|].
  cbn [String.concat].
  destruct (starts_clean_app w (sep +:+ String.concat sep (w' :: ws)) Hne Hclean).
  done.
Qed.

Lemma replace_starts_clean old new s :
  new ≠ EmptyString → starts_clean new →
  s ≠ EmptyString → starts_clean s →
  replace old new s ≠ EmptyString ∧ starts_clean (replace old new s).
Proof.
  intros Hnew Hcnew Hs Hcs. unfold replace. destruct s as [|c s]; [done|].
  cbn [replace_from]. destruct (String.prefix old (String c s)); [|done].
  destruct (starts_clean_app new (replace_from old new (String.length old - 1) s)
              Hnew Hcnew). done.
Qed.

Lemma strip_nonempty_clean s :
  s ≠ EmptyString → starts_clean s → strip s ≠ EmptyString.
Proof.
  intros Hs Hclean. unfold strip. rewrite lstrip_clean by done.
  destruct s as [|c s]; [done|]. simpl in *.
  destruct (rstrip s); [by rewrite Hclean|done].
Qed.

Lemma clean_ocr_text_stripped text : strip (clean_ocr_text text) = clean_ocr_text text.
Proof.
  unfold clean_ocr_text. destruct (is_empty text); [done|].
  apply strip_idempotent.
Qed.

Lemma clean_ocr_text_no_bar text : "|"%char ∉ chars (clean_ocr_text text).
Proof.
  unfold clean_ocr_text. destruct (is_empty text); [apply not_elem_of_nil|].
  intros Hbar. apply strip_chars in Hbar.
  apply replace_from_chars in Hbar as [Hbar|Hbar].
  - revert Hbar. apply (replace_one_char_gone "|" "I").
    by intros ?%list_elem_of_singleton.
  - by apply list_elem_of_singleton in Hbar.
Qed.

Lemma clean_ocr_text_empty_iff text :
  clean_ocr_text text = EmptyString ↔ strip text = EmptyString.
Proof.
  unfold clean_ocr_text. destruct (is_empty text) eqn:Hempty.
  { by apply is_empty_true in Hempty as ->. }
  split.
  - intros Hclean. destruct (decide (lstrip text = EmptyString)) as [Hl|Hl];
      [by apply strip_empty_lstrip|]. exfalso. revert Hclean.
    destruct (split_from_word text EmptyString) as (w & ws & Hsplit & Hw & Hcw);
      [by right|].
    unfold split. rewrite Hsplit.
    destruct (concat_starts_clean " " w ws Hw Hcw) as [Hc1 Hc2].
    destruct (replace_starts_clean "|" "I" _ ltac:(done) ltac:(done) Hc1 Hc2)
      as [Hr1 Hr2].
    destruct (replace_starts_clean fullwidth_zero_prefix "0" _
                ltac:(done) ltac:(done) Hr1 Hr2) as [Hz1 Hz2].
    by apply strip_nonempty_clean.
  - intros Hblank%strip_empty_lstrip. unfold split.
    by rewrite split_from_blank.
Qed.

(** X10: [clean_ocr_text] returns a string without leading or trailing
    whitespace and without the character '|', and the result is empty
    exactly when the input is blank. *)
Theorem clean_ocr_text_shape (text : string) :
  strip (clean_ocr_text text) = clean_ocr_text text
  ∧ ("|"%char ∉ chars (clean_ocr_text text))
  ∧ (clean_ocr_text text = EmptyString ↔ strip text = EmptyString).
Proof.
  split_and!.
  - apply clean_ocr_text_stripped.
  - apply clean_ocr_text_no_bar.
  - apply clean_ocr_text_empty_iff.
Qed.

(** *** The similarity as a float *)

Lemma binary64_similarity_total text1 text2 :
  ∃ x, Binary64.calculate_text_similarity_levenshtein text1 text2 = Some x.
Proof.
  unfold Binary64.calculate_text_similarity_levenshtein.
  destruct (is_empty text1 || is_empty text2); [by eexists|].
  case_bool_decide; [by eexists|].
  destruct (string_distance (lower (strip text1)) (lower (strip text2)))
    as (d & -> & Hle).
  cbn [mbind option_bind]. case_bool_decide as Hmax; [by eexists|].
  unfold Binary64.truediv. rewrite bool_decide_eq_false_2 by done. by eexists.
Qed.

Lemma binary64_similarity_empty_l text2 :
  Binary64.calculate_text_similarity_levenshtein EmptyString text2
  = Some Binary64.zero.
Proof. done. Qed.

Lemma binary64_similarity_same text :
  text ≠ EmptyString →
  Binary64.calculate_text_similarity_levenshtein text text = Some Binary64.one.
Proof.
  intros Hne%is_empty_false. unfold Binary64.calculate_text_similarity_levenshtein.
  rewrite Hne. simpl. by rewrite bool_decide_eq_true_2.
Qed.

(** The float returned is the exact similarity with its two operations
    rounded: both functions take the same branch on every input. *)
Lemma binary64_similarity_rounds_exact text1 text2 :
  (calculate_text_similarity_levenshtein text1 text2 = Some 0%Q
   ∧ Binary64.calculate_text_similarity_levenshtein text1 text2 = Some Binary64.zero)
  ∨ (calculate_text_similarity_levenshtein text1 text2 = Some 1%Q
     ∧ Binary64.calculate_text_similarity_levenshtein text1 text2 = Some Binary64.one)
  ∨ ∃ distance max_len quotient,
      distance ≤ max_len ∧ max_len ≠ 0
      ∧ calculate_text_similarity_levenshtein text1 text2
        = Some (1 - ratio distance max_len)%Q
      ∧ Binary64.truediv distance max_len = Some quotient
      ∧ Binary64.calculate_text_similarity_levenshtein text1 text2
        = Some (Binary64.sub Binary64.one quotient).
Proof.
  unfold calculate_text_similarity_levenshtein,
    Binary64.calculate_text_similarity_levenshtein.
  destruct (is_empty text1 || is_empty text2); [by left|].
  case_bool_decide; [by right; left|].
  destruct (string_distance (lower (strip text1)) (lower (strip text2)))
    as (d & -> & Hle).
  cbn [mbind option_bind]. case_bool_decide as Hmax; [by left|].
  right. right. exists d, (len (lower (strip text1)) `max` len (lower (strip text2))).
  unfold Binary64.truediv. rewrite bool_decide_eq_false_2 by done.
  eexists. by split_and!.
Qed.

(** No float is at most [0.0] and above it. *)
Lemma binary64_zero_not_above (x : Binary64.float) :
  Binary64.ge Binary64.zero x = true → Binary64.gt x Binary64.zero = true → False.
Proof.
  unfold Binary64.ge, Binary64.gt, Binary64.zero, SpecFloat.SFleb, SpecFloat.SFltb.
  destruct x as [[]|[]| |[] m e]; simpl; congruence.
Qed.

(** Where the rounding shows: four edits in five characters give
    [1.0 - 4 / 5], the float below [0.2], although the exact value is one
    fifth. *)
Example binary64_similarity_rounding :
  calculate_text_similarity_levenshtein "axxxx" "abcde" = Some (1 - ratio 4 5)%Q
  ∧ (1 - ratio 4 5 == 2 # 10)%Q
  ∧ Binary64.calculate_text_similarity_levenshtein "axxxx" "abcde"
    = Some (SpecFloat.S754_finite false 7205759403792792 (-55))
  ∧ Binary64.hundredths 20 = SpecFloat.S754_finite false 7205759403792794 (-55)
  ∧ Binary64.ge (SpecFloat.S754_finite false 7205759403792792 (-55))
      (Binary64.hundredths 20) = false.
Proof. split_and!; by vm_compute. Qed.

End UtilsFacts.

(** ** translate.py: [TranslationCache] *)

Module CacheFacts.

Import Cache.

Section TranslationCache.
Context {K V : Type} `{EqDecision K}.

Local Abbreviation TranslationCache := (Cache.TranslationCache K V).
Local Abbreviation op := (Cache.op K V).
Local Abbreviation init := (Cache.init (K:=K) (V:=V)).

(** *** Facts on the dictionary operations *)

Lemma od_get_None k (d : list (K * V)) : od_get k d = None ↔ k ∉ d.*1.
Proof.
  induction d as [|[k' v] d IH]; simpl.
  - split; [intros _; apply not_elem_of_nil | done].
  - rewrite not_elem_of_cons, <- IH. case_decide as Hk.
    + split; [done | by intros [? _]].
    + split; [done | by intros [_ ?]].
Qed.

Lemma od_get_Some_elem k (d : list (K * V)) v : od_get k d = Some v → k ∈ d.*1.
Proof.
  intros Hget. destruct (decide (k ∈ d.*1)) as [|Hn]; [done|].
  apply od_get_None in Hn. congruence.
Qed.

Lemma od_contains_true k (d : list (K * V)) : od_contains k d = true ↔ k ∈ d.*1.
Proof.
  unfold od_contains. destruct (od_get k d) as [v|] eqn:Hget.
  - split; [intros _; by eapply od_get_Some_elem | done].
  - apply od_get_None in Hget. split; [done | by intros ?].
Qed.

Lemma od_contains_false k (d : list (K * V)) : od_contains k d = false ↔ k ∉ d.*1.
Proof. rewrite <- od_contains_true. by destruct (od_contains k d). Qed.

(** The item found is the only way [od_remove] changes the list. *)
Lemma od_get_split k (d : list (K * V)) w :
  od_get k d = Some w →
  ∃ l r, d = (l ++ (k, w) :: r) ∧ (k ∉ l.*1) ∧ od_remove k d = l ++ r.
Proof.
  induction d as [|[k' v] d IH]; [done|]. simpl.
  case_decide as Hk.
  - intros [= ->]. subst k'. exists [], d. split_and!; [done| |done].
    apply not_elem_of_nil.
  - intros Hget. destruct (IH Hget) as (l & r & -> & Hl & Hrem).
    exists ((k', v) :: l), r. split_and!; [done| |by rewrite Hrem].
    simpl. rewrite not_elem_of_cons. done.
Qed.

Lemma od_get_mid k (l r : list (K * V)) w :
  k ∉ l.*1 → od_get k (l ++ (k, w) :: r) = Some w.
Proof.
  induction l as [|[k' v] l IH]; simpl.
  - intros _. by rewrite decide_True.
  - rewrite not_elem_of_cons. intros [Hne Hl]. rewrite decide_False by done. auto.
Qed.

Lemma od_remove_mid k (l r : list (K * V)) w :
  k ∉ l.*1 → od_remove k (l ++ (k, w) :: r) = l ++ r.
Proof.
  induction l as [|[k' v] l IH]; simpl.
  - intros _. by rewrite decide_True.
  - rewrite not_elem_of_cons. intros [Hne Hl].
    rewrite decide_False by done. by rewrite IH.
Qed.

Lemma od_get_snoc k (l : list (K * V)) w :
  k ∉ l.*1 → od_get k (l ++ [(k, w)]) = Some w.
Proof.
  induction l as [|[k' v] l IH]; simpl.
  - intros _. by rewrite decide_True.
  - rewrite not_elem_of_cons. intros [Hne Hl]. rewrite decide_False by done. auto.
Qed.

Lemma od_set_fresh k v (d : list (K * V)) : k ∉ d.*1 → od_set k v d = d ++ [(k, v)].
Proof.
  induction d as [|[k' v'] d IH]; simpl; [done|].
  rewrite not_elem_of_cons. intros [Hne Hd].
  rewrite decide_False by done. by rewrite IH.
Qed.

Lemma od_set_snoc k v w (l : list (K * V)) :
  k ∉ l.*1 → od_set k v (l ++ [(k, w)]) = l ++ [(k, v)].
Proof.
  induction l as [|[k' v'] l IH]; simpl.
  - intros _. by rewrite decide_True.
  - rewrite not_elem_of_cons. intros [Hne Hl].
    rewrite decide_False by done. by rewrite IH.
Qed.

(** *** What [get] and [put] do, case by case *)

Lemma get_miss k (c : TranslationCache) :
  k ∉ keys c → get k c = (None, c).
Proof.
  intros Hk. unfold get. apply od_contains_false in Hk. by rewrite Hk.
Qed.

Lemma get_hit (k : K) (w : V) l r N :
  k ∉ l.*1 → k ∉ r.*1 →
  get k {| max_size := N; cache := l ++ (k, w) :: r |} =
    (Some w, {| max_size := N; cache := (l ++ r) ++ [(k, w)] |}).
Proof.
  intros Hl Hr. unfold get, od_move_to_end, od_contains. simpl.
  rewrite od_get_mid, od_remove_mid by done.
  rewrite od_get_snoc; [done|].
  rewrite fmap_app, not_elem_of_app. done.
Qed.

Lemma put_hit (k : K) (v w : V) l r N :
  k ∉ l.*1 → k ∉ r.*1 →
  put k v {| max_size := N; cache := l ++ (k, w) :: r |} =
    {| max_size := N; cache := (l ++ r) ++ [(k, v)] |}.
Proof.
  intros Hl Hr. unfold put, od_move_to_end, od_contains. simpl.
  rewrite od_get_mid, od_remove_mid by done.
  rewrite od_set_snoc; [done|].
  rewrite fmap_app, not_elem_of_app. done.
Qed.

Lemma put_miss k v (c : TranslationCache) :
  k ∉ keys c →
  put k v c =
    {| max_size := max_size c;
       cache := if (Z.of_nat (length (cache c)) + 1 >? max_size c)%Z
                then tail (cache c ++ [(k, v)]) else cache c ++ [(k, v)] |}.
Proof.
  intros Hk. unfold put. pose proof Hk as Hk'.
  apply od_contains_false in Hk'. rewrite Hk'.
  rewrite od_set_fresh by done. rewrite length_app. simpl.
  replace (Z.of_nat (length (cache c) + 1)) with (Z.of_nat (length (cache c)) + 1)%Z by lia.
  by destruct (_ >? _)%Z.
Qed.

(** Every key present splits the items around its own, once the keys are
    distinct. *)
Lemma keys_split k (d : list (K * V)) :
  NoDup d.*1 → k ∈ d.*1 →
  ∃ l w r, d = (l ++ (k, w) :: r) ∧ (k ∉ l.*1) ∧ (k ∉ r.*1).
Proof.
  intros Hnd Hin. destruct (od_get k d) as [w|] eqn:Hget.
  - destruct (od_get_split _ _ _ Hget) as (l & r & -> & Hl & _).
    exists l, w, r. split_and!; [done..|].
    rewrite fmap_app, fmap_cons in Hnd. simpl in Hnd.
    apply NoDup_app in Hnd as (_ & _ & Hnd).
    by apply NoDup_cons in Hnd as [? _].
  - by apply od_get_None in Hget.
Qed.

(** *** The invariant *)

Lemma wf_init N : (0 ≤ N)%Z → wf N (init N).
Proof. intros HN. split_and!; [done | apply NoDup_nil_2 | simpl; lia]. Qed.

Lemma wf_get N k (c : TranslationCache) : wf N c → wf N (get k c).2.
Proof.
  intros (HN & Hnd & Hlen). destruct c as [M d]. simpl in *. subst M.
  destruct (decide (k ∈ d.*1)) as [Hin|Hnin].
  - destruct (keys_split k d Hnd Hin) as (l & w & r & -> & Hl & Hr).
    rewrite get_hit by done. split_and!; simpl; [done| |].
    + unfold keys in *. simpl in *.
      rewrite !fmap_app, fmap_cons in Hnd. rewrite !fmap_app. simpl in *.
      rewrite <- app_assoc. eapply NoDup_Permutation_proper; [|exact Hnd].
      apply Permutation_app_head. symmetry. apply Permutation_cons_append.
    + rewrite !length_app in *. simpl in *. lia.
  - by rewrite get_miss.
Qed.

Lemma wf_put N k v (c : TranslationCache) : wf N c → wf N (put k v c).
Proof.
  intros (HN & Hnd & Hlen). destruct c as [M d]. simpl in *. subst M.
  destruct (decide (k ∈ d.*1)) as [Hin|Hnin].
  - destruct (keys_split k d Hnd Hin) as (l & w & r & -> & Hl & Hr).
    rewrite put_hit by done. split_and!; simpl; [done| |].
    + unfold keys in *. simpl in *.
      rewrite !fmap_app, fmap_cons in Hnd. rewrite !fmap_app. simpl in *.
      rewrite <- app_assoc. eapply NoDup_Permutation_proper; [|exact Hnd].
      apply Permutation_app_head. symmetry. apply Permutation_cons_append.
    + rewrite !length_app in *. simpl in *. lia.
  - rewrite put_miss by done. simpl.
    assert (NoDup (d ++ [(k, v)]).*1) as Hnd'.
    { rewrite fmap_app. simpl. apply NoDup_app. split_and!; [done| |].
      - intros x Hx Hx'. apply list_elem_of_singleton in Hx' as ->. done.
      - apply NoDup_singleton. }
    destruct (Z.gtb_spec (Z.of_nat (length d) + 1) N) as [Hgt|Hle].
    + split_and!; simpl; [done| |].
      * unfold keys. simpl. destruct d as [|kv d]; simpl in *.
        -- apply NoDup_nil_2.
        -- by apply NoDup_cons in Hnd' as [_ ?].
      * destruct d as [|kv d]; simpl in *; [lia|].
        rewrite length_app. simpl. lia.
    + split_and!; simpl; [done..|]. rewrite length_app. simpl. lia.
Qed.

Lemma wf_clear N (c : TranslationCache) : wf N c → wf N (clear c).
Proof.
  intros (HN & Hnd & Hlen). split_and!; simpl; [done| |lia].
  apply NoDup_nil_2.
Qed.

Lemma wf_step N (c : TranslationCache) o : wf N c → wf N (step c o).
Proof.
  destruct o; simpl; auto using wf_get, wf_put, wf_clear.
Qed.

Lemma wf_run N (c : TranslationCache) ops : wf N c → wf N (run c ops).
Proof.
  revert c. induction ops as [|o ops IH]; intros c Hc; [done|].
  simpl. apply IH, wf_step, Hc.
Qed.

Lemma wf_states N (c : TranslationCache) ops : wf N c → Forall (wf N) (states c ops).
Proof.
  revert c. induction ops as [|o ops IH]; intros c Hc; simpl; [constructor|].
  constructor; [by apply wf_step | by apply IH, wf_step].
Qed.

(** *** Recency: the list order is the order of last use *)

Lemma run_snoc (c : TranslationCache) ops o : run c (ops ++ [o]) = step (run c ops) o.
Proof. unfold run. by rewrite foldl_snoc. Qed.

Lemma last_use_from_snoc t seen (c : TranslationCache) ops o k :
  last_use_from t seen c (ops ++ [o]) k =
    if touches (run c ops) o k then S (t + length ops)
    else last_use_from t seen c ops k.
Proof.
  revert t seen c. induction ops as [|o' ops IH]; intros t seen c; simpl.
  - rewrite Nat.add_0_r. by destruct (touches c o k).
  - rewrite IH. by rewrite Nat.add_succ_r.
Qed.

Lemma last_use_from_le t seen (c : TranslationCache) ops k :
  seen ≤ t → last_use_from t seen c ops k ≤ t + length ops.
Proof.
  revert t seen c. induction ops as [|o ops IH]; intros t seen c Hle; simpl; [lia|].
  rewrite Nat.add_succ_r. apply (IH (S t)). destruct (touches c o k); lia.
Qed.

Lemma last_use_snoc N (ops : list op) o k :
  last_use N (ops ++ [o]) k =
    if touches (run (init N) ops) o k then S (length ops) else last_use N ops k.
Proof. unfold last_use. by rewrite last_use_from_snoc. Qed.

Lemma last_use_le N (ops : list op) k : last_use N ops k ≤ length ops.
Proof. unfold last_use. by apply (last_use_from_le 0 0). Qed.

Lemma by_recency_ext (f g : K → nat) l :
  (∀ k, k ∈ l → f k = g k) → by_recency f l → by_recency g l.
Proof.
  unfold by_recency. induction l as [|x l IH]; intros Hfg Hs; [constructor|].
  apply StronglySorted_cons in Hs as [Hx Hl]. apply StronglySorted_cons. split.
  - rewrite Forall_forall in *. intros y Hy.
    rewrite <- (Hfg x), <- (Hfg y); [by apply Hx | by right | by left].
  - apply IH; [|done]. intros k Hk. apply Hfg. by right.
Qed.

Lemma by_recency_delete (f : K → nat) l1 x l2 :
  by_recency f (l1 ++ x :: l2) → by_recency f (l1 ++ l2).
Proof.
  unfold by_recency. rewrite !StronglySorted_app, StronglySorted_cons.
  intros (Hall & H1 & _ & H2). split_and!; [|done..].
  intros a b Ha Hb. apply Hall; [done | by right].
Qed.

Lemma by_recency_snoc (f : K → nat) l x :
  by_recency f l → (∀ y, y ∈ l → f y < f x) → by_recency f (l ++ [x]).
Proof.
  unfold by_recency. intros Hs Hx. apply StronglySorted_app. split_and!; [|done|].
  - intros a b Ha ->%list_elem_of_singleton. by apply Hx.
  - repeat constructor.
Qed.

Lemma by_recency_tail (f : K → nat) l : by_recency f l → by_recency f (tail l).
Proof.
  unfold by_recency. destruct l; [done|]. simpl.
  rewrite StronglySorted_cons. by intros [_ ?].
Qed.

(** Putting a key last after using it keeps the order. *)
Lemma by_recency_refresh N (ops : list op) o k (l : list K) :
  k ∉ l →
  touches (run (init N) ops) o k = true →
  (∀ k', k' ≠ k → touches (run (init N) ops) o k' = false) →
  by_recency (last_use N ops) l →
  by_recency (last_use N (ops ++ [o])) (l ++ [k]).
Proof.
  intros Hl Hk Hothers Hs. apply by_recency_snoc.
  - apply (by_recency_ext (last_use N ops)); [|done].
    intros k' Hk'. rewrite last_use_snoc, Hothers; [done|]. by intros ->.
  - intros k' Hk'. rewrite !last_use_snoc, Hk.
    rewrite Hothers by (by intros ->).
    pose proof (last_use_le N ops k'). lia.
Qed.

Lemma touches_get_other (c : TranslationCache) k k' :
  k' ≠ k → touches c (Get k) k' = false.
Proof. intros Hne. simpl. by rewrite bool_decide_eq_false_2. Qed.

Lemma touches_put_other (c : TranslationCache) k v k' :
  k' ≠ k → touches c (Put k v) k' = false.
Proof. intros Hne. simpl. by rewrite bool_decide_eq_false_2. Qed.

Lemma touches_get_hit (c : TranslationCache) k :
  k ∈ keys c → touches c (Get k) k = true.
Proof.
  intros Hin. simpl. rewrite bool_decide_eq_true_2 by done.
  by apply od_contains_true.
Qed.

Lemma touches_get_miss (c : TranslationCache) k k' :
  k ∉ keys c → touches c (Get k) k' = false.
Proof.
  intros Hnin. simpl. destruct (decide (k = k')) as [<-|Hne].
  - apply od_contains_false in Hnin. rewrite Hnin. by rewrite andb_false_r.
  - by rewrite bool_decide_eq_false_2.
Qed.

(** The invariant of the recency order along every history. *)
Lemma recency_invariant N (ops : list op) :
  (0 ≤ N)%Z →
  by_recency (last_use N ops) (keys (run (init N) ops)).
Proof.
  intros HN. induction ops as [|o ops IH] using rev_ind; [constructor|].
  rewrite run_snoc.
  pose proof (wf_run N (init N) ops (wf_init N HN)) as (HM & Hnd & Hlen).
  destruct (run (init N) ops) as [M d] eqn:Hc.
  unfold keys in *. simpl in *. subst M.
  destruct o as [k|k v|]; simpl.
  - destruct (decide (k ∈ d.*1)) as [Hin|Hnin].
    + destruct (keys_split k d Hnd Hin) as (l & w & r & -> & Hl & Hr).
      rewrite get_hit by done. simpl.
      rewrite !fmap_app, fmap_cons in *. simpl in *.
      apply by_recency_refresh.
      * by rewrite not_elem_of_app.
      * rewrite Hc. apply touches_get_hit. unfold keys. simpl.
        rewrite fmap_app, fmap_cons, elem_of_app. right. left.
      * intros k' Hne. by apply touches_get_other.
      * by eapply by_recency_delete.
    + rewrite get_miss by done. simpl.
      apply (by_recency_ext (last_use N ops)); [|done].
      intros k' _. rewrite last_use_snoc, Hc.
      by rewrite touches_get_miss.
  - destruct (decide (k ∈ d.*1)) as [Hin|Hnin].
    + destruct (keys_split k d Hnd Hin) as (l & w & r & -> & Hl & Hr).
      rewrite put_hit by done. simpl.
      rewrite !fmap_app, fmap_cons in *. simpl in *.
      apply by_recency_refresh.
      * by rewrite not_elem_of_app.
      * simpl. by rewrite bool_decide_eq_true_2.
      * intros k' Hne. by apply touches_put_other.
      * by eapply by_recency_delete.
    + rewrite put_miss by done. simpl.
      assert (by_recency (last_use N (ops ++ [Put k v])) (d ++ [(k, v)]).*1) as Hs.
      { rewrite fmap_app. simpl. apply by_recency_refresh; [done| | |done].
        - simpl. by rewrite bool_decide_eq_true_2.
        - intros k' Hne. by apply touches_put_other. }
      destruct (_ >? _)%Z; [|done].
      rewrite fmap_tail. by apply by_recency_tail.
  - constructor.
Qed.

(** A used key ends up last, with the latest time of use of all keys held. *)
Lemma refresh_most_recent N (ops : list op) o k :
  (1 ≤ N)%Z →
  touches (run (init N) ops) o k = true →
  ∃ rest w,
    cache (run (init N) (ops ++ [o])) = rest ++ [(k, w)] ∧
    ∀ k', k' ∈ rest.*1 →
      last_use N (ops ++ [o]) k' < last_use N (ops ++ [o]) k.
Proof.
  intros HN Hk.
  assert (∃ rest w, cache (run (init N) (ops ++ [o])) = rest ++ [(k, w)])
    as (rest & w & Heq).
  { rewrite run_snoc.
    pose proof (wf_run N (init N) ops (wf_init N ltac:(lia))) as (HM & Hnd & Hlen).
    destruct (run (init N) ops) as [M d] eqn:Hc.
    unfold keys in *. simpl in *. subst M.
    destruct o as [k0|k0 v|]; simpl in Hk; [| |done].
    - apply andb_true_iff in Hk as [->%bool_decide_eq_true Hin].
      apply od_contains_true in Hin.
      destruct (keys_split k d Hnd Hin) as (l & w & r & -> & Hl & Hr).
      simpl. rewrite get_hit by done. simpl. by eexists _, _.
    - apply bool_decide_eq_true in Hk as ->. simpl.
      destruct (decide (k ∈ d.*1)) as [Hin|Hnin].
      + destruct (keys_split k d Hnd Hin) as (l & w & r & -> & Hl & Hr).
        rewrite put_hit by done. simpl. by eexists _, _.
      + rewrite put_miss by done. simpl.
        destruct (Z.gtb_spec (Z.of_nat (length d) + 1) N) as [Hgt|Hle].
        * destruct d as [|kv d]; simpl in *; [lia|]. by eexists _, _.
        * by eexists _, _. }
  exists rest, w. split; [done|]. intros k' Hk'.
  pose proof (recency_invariant N (ops ++ [o]) ltac:(lia)) as Hs.
  unfold keys in Hs. rewrite Heq, fmap_app in Hs. simpl in Hs.
  eapply (StronglySorted_app_1_elem_of _ _ _ _ _ Hs); [done | left].
Qed.

(** C2: from an empty cache of capacity [N >= 1], after each operation of any
    history of gets, puts and clears the cache holds at most [N] entries and
    no key twice. *)
Theorem cache_bounded_keys_unique (N : Z) (ops : list op) :
  (1 ≤ N)%Z →
  Forall (λ c, (Z.of_nat (length (cache c)) ≤ N)%Z ∧ NoDup (keys c))
    (states (init N) ops).
Proof.
  intros HN. eapply Forall_impl; [apply (wf_states N), wf_init; lia|].
  intros c (_ & Hnd & Hlen). done.
Qed.

(** C1: least-recently-used eviction.  In the cache reached by any history
    from an empty cache of capacity [N >= 1]: a put of an absent key into the
    full cache evicts exactly the first entry, whose last get-hit or put is
    older than that of every other entry; a put, and a get that hits, leave
    their key last with the latest time of use; and on capacity 2 the history
    put a, put b, get a, put c keeps a and c, while put a, put b, put c keeps
    b and c. *)
Theorem lru_eviction (N : Z) (ops : list op) (k : K) (v : V) :
  (1 ≤ N)%Z →
  let c := run (init N) ops in
  (k ∉ keys c → Z.of_nat (length (cache c)) = N →
     ∃ victim w rest,
       cache c = (victim, w) :: rest ∧
       cache (put k v c) = rest ++ [(k, v)] ∧
       ∀ k', k' ∈ rest.*1 → last_use N ops victim < last_use N ops k') ∧
  (∃ rest,
     cache (put k v c) = rest ++ [(k, v)] ∧
     ∀ k', k' ∈ rest.*1 →
       last_use N (ops ++ [Put k v]) k' < last_use N (ops ++ [Put k v]) k) ∧
  (∀ w, od_get k (cache c) = Some w →
     ∃ rest,
       get k c = (Some w, {| max_size := N; cache := rest ++ [(k, w)] |}) ∧
       ∀ k', k' ∈ rest.*1 →
         last_use N (ops ++ [Get k]) k' < last_use N (ops ++ [Get k]) k) ∧
  (∀ a b c' va vb vc, a ≠ b → a ≠ c' → b ≠ c' →
     keys (run (init 2) [Put a va; Put b vb; Get a; Put c' vc]) = [a; c'] ∧
     keys (run (init 2) [Put a va; Put b vb; Put c' vc]) = [b; c']).
Proof.
  intros HN c.
  pose proof (wf_run N (init N) ops (wf_init N ltac:(lia))) as (HM & Hnd & Hlen).
  pose proof (recency_invariant N ops ltac:(lia)) as Hs.
  fold c in HM, Hnd, Hlen, Hs. split_and!.
  - intros Hk Hfull. destruct c as [M d]. unfold keys in *. simpl in *. subst M.
    destruct d as [|[victim w] rest]; simpl in *; [lia|].
    exists victim, w, rest. split_and!; [done| |].
    + rewrite put_miss by done. simpl.
      destruct (Z.gtb_spec (Z.of_nat (S (length rest)) + 1) N); [done|lia].
    + apply StronglySorted_cons in Hs as [Hall _].
      rewrite Forall_forall in Hall. done.
  - destruct (refresh_most_recent N ops (Put k v) k HN) as (rest & w & Heq & Hlt).
    { simpl. by rewrite bool_decide_eq_true_2. }
    rewrite run_snoc in Heq. simpl in Heq. fold c in Heq.
    assert (w = v) as ->; [|by exists rest].
    assert (od_get k (cache (put k v c)) = Some v) as Hget.
    { destruct c as [M d]. unfold keys in *. simpl in *. subst M.
      destruct (decide (k ∈ d.*1)) as [Hin|Hnin].
      - destruct (keys_split k d Hnd Hin) as (l & w' & r & -> & Hl & Hr).
        rewrite put_hit by done. simpl. apply od_get_snoc.
        by rewrite fmap_app, not_elem_of_app.
      - rewrite put_miss by done. simpl.
        destruct (Z.gtb_spec (Z.of_nat (length d) + 1) N) as [Hgt|Hle].
        + destruct d as [|[k1 v1] d]; simpl in *; [lia|].
          apply od_get_snoc. by apply not_elem_of_cons in Hnin as [_ ?].
        + by apply od_get_snoc. }
    pose proof (wf_put N k v c (conj HM (conj Hnd Hlen))) as (_ & Hnd' & _).
    unfold keys in Hnd'. rewrite Heq in Hget, Hnd'.
    rewrite fmap_app in Hnd'. simpl in Hnd'.
    apply NoDup_app in Hnd' as (_ & Hdisj & _).
    rewrite od_get_snoc in Hget; [congruence|].
    intros Hin. apply (Hdisj k Hin). left.
  - intros w Hget.
    destruct (od_get_split _ _ _ Hget) as (l & r & Heq & Hl & _).
    assert (k ∉ r.*1) as Hr.
    { unfold keys in Hnd. rewrite Heq, fmap_app, fmap_cons in Hnd. simpl in Hnd.
      apply NoDup_app in Hnd as (_ & _ & Hnd).
      by apply NoDup_cons in Hnd as [? _]. }
    destruct (refresh_most_recent N ops (Get k) k HN) as (rest & w' & Heq' & Hlt).
    { apply touches_get_hit. by eapply od_get_Some_elem. }
    rewrite run_snoc in Heq'. simpl in Heq'. fold c in Heq'.
    destruct c as [M d]. simpl in *. subst M d.
    rewrite get_hit in Heq' |- * by done. simpl in Heq'.
    apply app_inj_tail in Heq' as [Hrest _]. subst rest. by exists (l ++ r).
  - intros a b c' va vb vc Hab Hac Hbc. unfold run, keys. simpl.
    unfold put, get, od_contains, od_move_to_end. simpl.
    repeat (case_decide; simplify_eq; simpl); done.
Qed.

End TranslationCache.

Example refreshed_history_keeps_a_c :
  cache (run (init 2) refreshed_history) = [("a", "1"); ("c", "3")].
Proof. reflexivity. Qed.

Example plain_history_keeps_b_c :
  cache (run (init 2) plain_history) = [("b", "2"); ("c", "3")].
Proof. reflexivity. Qed.

Lemma cache_bounded_keys_unique_witness :
  (1 ≤ 2)%Z
  ∧ Forall (λ c : TranslationCache string string,
              (Z.of_nat (length (cache c)) ≤ 2)%Z ∧ NoDup (keys c))
      (states (init 2) (refreshed_history ++ [Clear; Get "b"; Put "d" "4"])).
Proof.
  split; [lia|].
  apply (cache_bounded_keys_unique 2 (refreshed_history ++ [Clear; Get "b"; Put "d" "4"])).
  lia.
Defined.

Lemma lru_eviction_witness :
  (1 ≤ 2)%Z
  ∧ ("c" ∉ keys (run (init 2) [Put "a" "1"; Put "b" "2"; Get "a"]))
  ∧ Z.of_nat (length (cache (run (init 2) [Put "a" "1"; Put "b" "2"; Get "a"]))) = 2%Z
  ∧ ∃ victim w rest,
      cache (run (init 2) [Put "a" "1"; Put "b" "2"; Get "a"]) = (victim, w) :: rest
      ∧ cache (put "c" "3" (run (init 2) [Put "a" "1"; Put "b" "2"; Get "a"]))
        = rest ++ [("c", "3")]
      ∧ ∀ k', k' ∈ rest.*1 →
          last_use 2 [Put "a" "1"; Put "b" "2"; Get "a"] victim
          < last_use 2 [Put "a" "1"; Put "b" "2"; Get "a"] k'.
Proof.
  assert ("c" ∉ keys (run (init 2) [Put "a" "1"; Put "b" "2"; Get "a"])) as Hk.
  { apply od_contains_false. reflexivity. }
  split_and!; [lia | exact Hk | reflexivity |].
  refine (proj1 (lru_eviction 2 [Put "a" "1"; Put "b" "2"; Get "a"] "c" "3" _) Hk _);
    [lia | reflexivity].
Defined.

(** *** Lookups, updates and fills *)

Section TranslationCacheUse.
Context {K V : Type} `{EqDecision K}.

Local Abbreviation TranslationCache := (Cache.TranslationCache K V).
Local Abbreviation op := (Cache.op K V).
Local Abbreviation init := (Cache.init (K:=K) (V:=V)).

Lemma od_get_app k (d1 d2 : list (K * V)) :
  od_get k (d1 ++ d2)
  = match od_get k d1 with Some v => Some v | None => od_get k d2 end.
Proof.
  induction d1 as [|[k' v'] d1 IH]; [done|]. simpl. by case_decide.
Qed.

Lemma od_get_other (k k' : K) (v : V) : k' ≠ k → od_get k' [(k, v)] = None.
Proof. intros Hne. simpl. by rewrite decide_False. Qed.

Lemma max_size_step (c : TranslationCache) o : max_size (step c o) = max_size c.
Proof.
  destruct o as [k|k v|]; simpl; [| |done].
  - unfold get. by destruct (od_contains k (cache c)).
  - unfold put. destruct (od_contains k (cache c)); [done|].
    by destruct (_ >? _)%Z.
Qed.

Lemma max_size_run (c : TranslationCache) ops : max_size (run c ops) = max_size c.
Proof.
  revert c. induction ops as [|o ops IH]; intros c; [done|].
  simpl. by rewrite IH, max_size_step.
Qed.

(** After a put into a cache of capacity at least 1 the key is the last
    entry. *)
Lemma put_ends_with N (k : K) (v : V) (c : TranslationCache) :
  (1 ≤ N)%Z → wf N c →
  ∃ rest, put k v c = {| max_size := N; cache := rest ++ [(k, v)] |}
          ∧ k ∉ rest.*1.
Proof.
  intros HN (HM & Hnd & Hlen). destruct c as [M d].
  unfold keys in *. simpl in *. subst M.
  destruct (decide (k ∈ d.*1)) as [Hin|Hnin].
  - destruct (keys_split k d Hnd Hin) as (l & w & r & -> & Hl & Hr).
    rewrite put_hit by done. exists (l ++ r). split; [done|].
    by rewrite fmap_app, not_elem_of_app.
  - rewrite put_miss by done. simpl.
    destruct (Z.gtb_spec (Z.of_nat (length d) + 1) N) as [Hgt|Hle].
    + destruct d as [|[k1 v1] d]; simpl in *; [lia|].
      exists d. split; [done|]. by apply not_elem_of_cons in Hnin as [_ ?].
    + by exists d.
Qed.

(** A get that hits leaves the key as the last entry. *)
Lemma get_hit_ends_with N (k : K) (w : V) (c : TranslationCache) :
  wf N c → od_get k (cache c) = Some w →
  ∃ rest, get k c = (Some w, {| max_size := N; cache := rest ++ [(k, w)] |})
          ∧ k ∉ rest.*1.
Proof.
  intros (HM & Hnd & Hlen) Hget. destruct c as [M d].
  unfold keys in *. simpl in *. subst M.
  pose proof (od_get_Some_elem _ _ _ Hget) as Hin.
  destruct (keys_split k d Hnd Hin) as (l & w' & r & -> & Hl & Hr).
  rewrite od_get_mid in Hget by done. injection Hget as ->.
  rewrite get_hit by done. exists (l ++ r). split; [done|].
  by rewrite fmap_app, not_elem_of_app.
Qed.

(** X11: in a cache of capacity at least 1, a get right after a put finds the
    value put and changes nothing. *)
Theorem get_after_put (N : Z) (k : K) (v : V) (c : TranslationCache) :
  (1 ≤ N)%Z → wf N c →
  get k (put k v c) = (Some v, put k v c).
Proof.
  intros HN Hwf. destruct (put_ends_with N k v c HN Hwf) as (rest & -> & Hrest).
  rewrite (get_hit k v rest [] N) by (done || apply not_elem_of_nil).
  by rewrite app_nil_r.
Qed.

(** X12: a get returns the value stored for the key, if any, and only
    reorders the entries: the entries are the same up to order, and every
    lookup gives the same answer after the get as before. *)
Theorem get_only_reorders (N : Z) (k : K) (c : TranslationCache) :
  wf N c →
  (get k c).1 = od_get k (cache c)
  ∧ cache (get k c).2 ≡ₚ cache c
  ∧ ∀ k', od_get k' (cache (get k c).2) = od_get k' (cache c).
Proof.
  intros (HM & Hnd & Hlen). destruct c as [M d].
  unfold keys in *. simpl in *. subst M.
  destruct (decide (k ∈ d.*1)) as [Hin|Hnin].
  - destruct (keys_split k d Hnd Hin) as (l & w & r & -> & Hl & Hr).
    rewrite get_hit by done. simpl. split_and!.
    + by rewrite od_get_mid.
    + rewrite <- app_assoc. apply Permutation_app_head.
      symmetry. apply Permutation_cons_append.
    + intros k'. rewrite <- app_assoc, !od_get_app. simpl.
      destruct (od_get k' l) as [x|] eqn:Hl'; [done|].
      destruct (decide (k' = k)) as [->|Hne].
      * apply od_get_None in Hr. rewrite Hr, ?decide_True by done. done.
      * rewrite ?decide_False by done. by destruct (od_get k' r).
  - rewrite get_miss by done. simpl. split_and!; [|done..].
    symmetry. by apply od_get_None.
Qed.

(** X13: a put on a key that is present evicts nothing: the number of
    entries is unchanged, the key now has the new value, and every other key
    keeps its value. *)
Theorem put_existing_evicts_nothing (N : Z) (k : K) (v : V) (c : TranslationCache) :
  wf N c → k ∈ keys c →
  length (cache (put k v c)) = length (cache c)
  ∧ od_get k (cache (put k v c)) = Some v
  ∧ ∀ k', k' ≠ k → od_get k' (cache (put k v c)) = od_get k' (cache c).
Proof.
  intros (HM & Hnd & Hlen) Hin. destruct c as [M d].
  unfold keys in *. simpl in *. subst M.
  destruct (keys_split k d Hnd Hin) as (l & w & r & -> & Hl & Hr).
  rewrite put_hit by done. simpl. split_and!.
  - rewrite !length_app. simpl. lia.
  - apply od_get_snoc. by rewrite fmap_app, not_elem_of_app.
  - intros k' Hne. rewrite <- app_assoc, !od_get_app. simpl.
    destruct (od_get k' l); [done|]. rewrite !decide_False by done.
    by destruct (od_get k' r).
Qed.

(** X14: putting items with distinct keys into an empty cache keeps the last
    [max_size] of them, in the order of insertion (all of them while there is
    room, none when [max_size] is not positive). *)
Theorem fill_keeps_the_latest (N : Z) (items : list (K * V)) :
  NoDup items.*1 →
  cache (run (init N) (puts items)) = drop (length items - Z.to_nat N) items.
Proof.
  induction items as [|[k v] items IH] using rev_ind; intros Hnd; [done|].
  rewrite fmap_app in Hnd. apply NoDup_app in Hnd as (Hnd & Hdisj & _).
  unfold puts. rewrite fmap_app. simpl. rewrite run_snoc. simpl.
  fold (puts items). specialize (IH Hnd).
  assert (k ∉ items.*1) as Hk.
  { intros Hin. apply (Hdisj k Hin). left. }
  pose proof (max_size_run (init N) (puts items)) as HM. simpl in HM.
  destruct (run (init N) (puts items)) as [M d]. simpl in *. subst M d.
  rewrite put_miss; simpl.
  2:{ intros Hin. apply Hk. unfold keys in Hin. simpl in Hin.
      apply list_elem_of_fmap in Hin as (kv & -> & Hin).
      apply list_elem_of_fmap. exists kv. split; [done|].
      by eapply subseteq_drop. }
  rewrite length_drop, length_app. simpl.
  destruct (Z.gtb_spec (Z.of_nat (length items - (length items - Z.to_nat N)) + 1) N)
    as [Hgt|Hle].
  - destruct (decide (Z.to_nat N = 0)) as [HN0|HN0].
    + rewrite HN0, !Nat.sub_0_r, drop_all.
      rewrite drop_ge by (rewrite length_app; simpl; lia). done.
    + assert (Z.to_nat N ≤ length items) as Hfull by lia.
      replace (length items + 1 - Z.to_nat N) with (S (length items - Z.to_nat N)) by lia.
      rewrite drop_app_le by lia.
      destruct (drop (length items - Z.to_nat N) items) as [|kv d] eqn:Hd.
      * apply (f_equal length) in Hd. rewrite length_drop in Hd. simpl in Hd. lia.
      * simpl. f_equal.
        replace (S (length items - Z.to_nat N))
          with (length items - Z.to_nat N + 1) by lia.
        by rewrite <- drop_drop, Hd.
  - replace (length items - Z.to_nat N) with 0 by lia.
    replace (length items + 1 - Z.to_nat N) with 0 by lia. done.
Qed.

(** X15: a cache whose [max_size] is not positive never holds an entry. *)
Theorem nonpositive_capacity_stays_empty (N : Z) (ops : list op) :
  (N ≤ 0)%Z → cache (run (init N) ops) = [].
Proof.
  intros HN. induction ops as [|o ops IH] using rev_ind; [done|].
  rewrite run_snoc. pose proof (max_size_run (init N) ops) as HM. simpl in HM.
  destruct (run (init N) ops) as [M d]. simpl in *. subst M d.
  destruct o as [k|k v|]; cbn [step]; [| |done].
  - by rewrite get_miss by apply not_elem_of_nil.
  - rewrite put_miss by apply not_elem_of_nil. simpl.
    destruct (Z.gtb_spec (Z.of_nat 0 + 1) N); [done|lia].
Qed.

End TranslationCacheUse.

Lemma get_after_put_witness :
  (1 ≤ 2)%Z
  ∧ wf 2 (run (Cache.init 2) refreshed_history)
  ∧ get "b" (put "b" "9" (run (Cache.init 2) refreshed_history))
    = (Some "9", {| max_size := 2; cache := [("c", "3"); ("b", "9")] |}).
Proof.
  assert (wf 2 (run (Cache.init 2) refreshed_history)) as Hwf.
  { apply wf_run, wf_init. lia. }
  split_and!; [lia | exact Hwf |].
  exact (get_after_put 2 "b" "9" (run (Cache.init 2) refreshed_history)
           ltac:(lia) Hwf).
Defined.

Lemma get_only_reorders_witness :
  wf 2 (run (Cache.init 2) plain_history)
  ∧ (get "b" (run (Cache.init 2) plain_history)).1 = Some "2"
  ∧ cache (get "b" (run (Cache.init 2) plain_history)).2
    ≡ₚ [("b", "2"); ("c", "3")]
  ∧ ∀ k', od_get k' (cache (get "b" (run (Cache.init 2) plain_history)).2)
          = od_get k' [("b", "2"); ("c", "3")].
Proof.
  assert (wf 2 (run (Cache.init 2) plain_history)) as Hwf.
  { apply wf_run, wf_init. lia. }
  split; [exact Hwf|].
  exact (get_only_reorders 2 "b" (run (Cache.init 2) plain_history) Hwf).
Defined.

Lemma put_existing_evicts_nothing_witness :
  wf 2 (run (Cache.init 2) plain_history)
  ∧ "b" ∈ keys (run (Cache.init 2) plain_history)
  ∧ length (cache (put "b" "9" (run (Cache.init 2) plain_history))) = 2
  ∧ od_get "b" (cache (put "b" "9" (run (Cache.init 2) plain_history))) = Some "9"
  ∧ ∀ k', k' ≠ "b" →
      od_get k' (cache (put "b" "9" (run (Cache.init 2) plain_history)))
      = od_get k' [("b", "2"); ("c", "3")].
Proof.
  assert (wf 2 (run (Cache.init 2) plain_history)) as Hwf.
  { apply wf_run, wf_init. lia. }
  assert ("b" ∈ keys (run (Cache.init 2) plain_history)) as Hin.
  { apply od_contains_true. reflexivity. }
  split_and!; [exact Hwf | exact Hin | ..];
    apply (put_existing_evicts_nothing 2 "b" "9" (run (Cache.init 2) plain_history) Hwf Hin).
Defined.

Lemma fill_keeps_the_latest_witness :
  NoDup [("a", "1"); ("b", "2"); ("c", "3")].*1
  ∧ cache (run (Cache.init 2) (puts [("a", "1"); ("b", "2"); ("c", "3")]))
    = [("b", "2"); ("c", "3")].
Proof.
  assert (NoDup [("a", "1"); ("b", "2"); ("c", "3")].*1) as Hnd.
  { cbn [fmap list_fmap fst]. rewrite !NoDup_cons, !not_elem_of_cons.
    split_and!; try done; try apply not_elem_of_nil. apply NoDup_nil_2. }
  split; [exact Hnd|].
  exact (fill_keeps_the_latest 2 [("a", "1"); ("b", "2"); ("c", "3")] Hnd).
Defined.

Lemma nonpositive_capacity_stays_empty_witness :
  (0 ≤ 0)%Z
  ∧ cache (run (Cache.init 0) refreshed_history) = [].
Proof.
  split; [lia|]. apply (nonpositive_capacity_stays_empty 0 refreshed_history). lia.
Defined.

End CacheFacts.

(** ** translate.py: [Translator] *)

Module TranslateFacts.

Import Utils UtilsFacts Translate.

Example translate_twice :
  let t0 := init echo_provider "it" "en" 100 default_threshold in
  let '(r1, t1, e1) := translate echo_provider t0 "Ciao" false in
  let '(r2, t2, e2) := translate echo_provider t1 "Ciao" false in
  r1 = Some "<Ciao>" ∧ e1 = [CacheGet "Ciao"; ProviderCall "Ciao"; CachePut "Ciao" "<Ciao>"]
  ∧ r2 = Some "<Ciao>" ∧ e2 = [].
Proof. vm_compute. done. Qed.

Example translate_failure :
  let t0 := init down_provider "it" "en" 100 default_threshold in
  (translate down_provider t0 " Ciao " false).1.1 = Some "Ciao".
Proof. vm_compute. done. Qed.

Example translate_failure_after_success :
  (translate down_provider (after_ciao default_threshold) "Buongiorno" false).1.1
  = Some "<Ciao mondo!> [error]".
Proof. vm_compute. done. Qed.

(** *** Facts on [translate] *)

Lemma not_blank text :
  strip text ≠ EmptyString → is_empty text || is_empty (strip text) = false.
Proof.
  intros Hne. apply orb_false_iff. split; apply is_empty_false; [|done].
  intros ->. by apply Hne.
Qed.

Lemma similar_to_last_total self text force :
  ∃ b, similar_to_last self text force = Some b.
Proof.
  unfold similar_to_last. destruct (negb force && _); [|by eexists].
  destruct (binary64_similarity_total text (_last_source_text self)) as (x & ->).
  by eexists.
Qed.

Lemma try_translate_fails env self text :
  provider_fails env self text ↔ (try_translate env self text).1.1 = None.
Proof.
  unfold provider_fails, try_translate.
  destruct (translator self) as [[source target]|]; simpl.
  - by destruct (respond env source target text).
  - destruct (construct env _ _); simpl.
    + destruct (respond env _ _ text); simpl.
      * split; [by intros [?|?] | done].
      * split; [done | by right].
    + split; [done | by left].
Qed.

(** A failed attempt leaves the cache and the last pair as they were. *)
Lemma try_translate_failure_frame env self text :
  (try_translate env self text).1.1 = None →
  cache (try_translate env self text).1.2 = cache self
  ∧ _last_source_text (try_translate env self text).1.2 = _last_source_text self
  ∧ _last_translation (try_translate env self text).1.2 = _last_translation self.
Proof.
  unfold try_translate.
  destruct (translator self) as [[source target]|]; simpl.
  - by destruct (respond env source target text).
  - destruct (construct env _ _); simpl; [|done].
    by destruct (respond env _ _ text).
Qed.

(** A successful attempt caches and remembers its answer. *)
Lemma try_translate_success env self text r :
  (try_translate env self text).1.1 = Some r →
  cache (try_translate env self text).1.2 = Cache.put text r (cache self)
  ∧ _last_source_text (try_translate env self text).1.2 = text
  ∧ _last_translation (try_translate env self text).1.2 = r
  ∧ Stderr ∉ (try_translate env self text).2.
Proof.
  unfold try_translate.
  destruct (translator self) as [[source target]|]; simpl.
  - destruct (respond env source target text); simpl; [|done].
    intros [= ->]. split_and!; [done..|].
    rewrite !not_elem_of_cons. split_and!; [done..|apply not_elem_of_nil].
  - destruct (construct env _ _); simpl; [|done].
    destruct (respond env _ _ text); simpl; [|done].
    intros [= ->]. split_and!; [done..|].
    rewrite !not_elem_of_cons. split_and!; [done..|apply not_elem_of_nil].
Qed.

Lemma translate_never_raises env self text force :
  ∃ r, (translate env self text force).1.1 = Some r.
Proof.
  unfold translate. destruct (is_empty text || _); [by eexists|].
  destruct (similar_to_last_total self (strip text) force) as [[] ->];
    [by eexists|].
  destruct (Cache.get (strip text) (cache self)) as [[cached|] c]; [by eexists|].
  destruct (try_translate env _ (strip text)) as [[[r|] self'] evs]; by eexists.
Qed.

(** C3, as the code has it: when [force] is false, the last source text is
    non-empty, the similarity of the stripped input to it reaches the
    threshold (both floats, compared as the code compares them), and the
    input is not blank (which a positive threshold already ensures),
    [translate] returns the last translation, does nothing else (no cache
    lookup, no call of the service) and leaves the translator, its cache
    included, as it was. *)
Theorem short_circuit_reuses_last (env : Provider) (self : Translator)
    (text : string) (sim : Binary64.float) :
  _last_source_text self ≠ EmptyString →
  Binary64.calculate_text_similarity_levenshtein (strip text) (_last_source_text self)
  = Some sim →
  Binary64.ge sim (similarity_threshold self) = true →
  Binary64.gt (similarity_threshold self) Binary64.zero = true
  ∨ strip text ≠ EmptyString →
  translate env self text false = (Some (_last_translation self), self, []).
Proof.
  intros Hlast Hsim Hle Hpos.
  assert (strip text ≠ EmptyString) as Hne.
  { destruct Hpos as [Hpos|]; [|done]. intros Hblank.
    rewrite Hblank, binary64_similarity_empty_l in Hsim. injection Hsim as <-.
    exact (binary64_zero_not_above _ Hle Hpos). }
  unfold translate. rewrite not_blank by done.
  unfold similar_to_last. apply is_empty_false in Hlast. rewrite Hlast. simpl.
  rewrite Hsim. cbn [mbind option_bind]. by rewrite Hle.
Qed.

(** One edit in eleven characters: [1.0 - 1 / 11] is the float
    0.9090909090909091, above the default threshold. *)
Lemma short_circuit_reuses_last_witness :
  let sim := SpecFloat.S754_finite false 8188362958855447 (-53) in
  _last_source_text (after_ciao default_threshold) ≠ EmptyString
  ∧ Binary64.calculate_text_similarity_levenshtein (strip " ciao mondo ")
      (_last_source_text (after_ciao default_threshold)) = Some sim
  ∧ Binary64.ge sim (similarity_threshold (after_ciao default_threshold)) = true
  ∧ translate down_provider (after_ciao default_threshold) " ciao mondo " false
    = (Some "<Ciao mondo!>", after_ciao default_threshold, []).
Proof.
  intros sim.
  assert (_last_source_text (after_ciao default_threshold) ≠ EmptyString) as H1 by done.
  assert (Binary64.calculate_text_similarity_levenshtein (strip " ciao mondo ")
            (_last_source_text (after_ciao default_threshold)) = Some sim)
    as H2 by (vm_compute; reflexivity).
  assert (Binary64.ge sim (similarity_threshold (after_ciao default_threshold)) = true)
    as H3 by (vm_compute; reflexivity).
  split_and!; [exact H1 | exact H2 | exact H3 |].
  apply (short_circuit_reuses_last down_provider (after_ciao default_threshold)
           " ciao mondo " sim H1 H2 H3).
  right. done.
Defined.

(** The test is the one of the floats: with a threshold of [0.2] and four
    edits in five characters the similarity is the float below [0.2], and the
    service is called. *)
Example rounding_decides_the_reuse :
  let self :=
    (translate echo_provider
       (init echo_provider "it" "en" 100 (Binary64.hundredths 20)) "abcde" true).1.2 in
  _last_source_text self = "abcde"
  ∧ similar_to_last self "axxxx" false = Some false
  ∧ (translate echo_provider self "axxxx" false).2
    = [CacheGet "axxxx"; ProviderCall "axxxx"; CachePut "axxxx" "<axxxx>"].
Proof. by vm_compute. Qed.

(** C3 as stated fails for a blank input under a threshold of 0: every
    hypothesis of the claim holds and the empty string is returned, not the
    last translation. *)
Lemma blank_input_is_not_reused :
  _last_source_text zero_threshold ≠ EmptyString
  ∧ Binary64.calculate_text_similarity_levenshtein (strip " ")
      (_last_source_text zero_threshold) = Some Binary64.zero
  ∧ Binary64.ge Binary64.zero (similarity_threshold zero_threshold) = true
  ∧ (translate echo_provider zero_threshold " " false).1.1 = Some EmptyString
  ∧ (translate echo_provider zero_threshold " " false).1.1
    ≠ Some (_last_translation zero_threshold).
Proof. split_and!; [done | done | by vm_compute | done | done]. Qed.

(** C4: on a non-blank input that reaches the service (no reuse, no cache
    hit) and on which the service fails, [translate] returns a string: the
    last translation followed by " [error]" when there is one, the stripped
    input otherwise; the last source text, the last translation and the cache
    are as before, and the error is reported on stderr. *)
Theorem provider_failure_falls_back (env : Provider) (self : Translator)
    (text : string) (force : bool) :
  strip text ≠ EmptyString →
  similar_to_last self (strip text) force ≠ Some true →
  strip text ∉ Cache.keys (cache self) →
  provider_fails env self (strip text) →
  ∃ self' evs,
    translate env self text force
      = (Some (if is_empty (_last_translation self) then strip text
               else _last_translation self +:+ " [error]"), self', evs)
    ∧ _last_source_text self' = _last_source_text self
    ∧ _last_translation self' = _last_translation self
    ∧ cache self' = cache self
    ∧ last evs = Some Stderr.
Proof.
  intros Hne Hsim Hmiss Hfail. unfold translate. rewrite not_blank by done.
  destruct (similar_to_last_total self (strip text) force) as [[] Hb];
    [congruence|]. rewrite Hb.
  rewrite CacheFacts.get_miss by done.
  assert (with_cache (cache self) self = self) as -> by by destruct self.
  apply try_translate_fails in Hfail.
  pose proof (try_translate_failure_frame env self (strip text) Hfail)
    as (Hc & Hs & Ht).
  destruct (try_translate env self (strip text)) as [[r self'] evs].
  simpl in *. subst r. exists self', (CacheGet (strip text) :: evs ++ [Stderr]).
  split_and!; [|done..|].
  - unfold fallback. by rewrite Ht.
  - by rewrite app_comm_cons, last_snoc.
Qed.

Lemma provider_failure_falls_back_witness :
  strip " Buongiorno " ≠ EmptyString
  ∧ similar_to_last (after_ciao default_threshold) (strip " Buongiorno ") false ≠ Some true
  ∧ (strip " Buongiorno " ∉ Cache.keys (cache (after_ciao default_threshold)))
  ∧ provider_fails down_provider (after_ciao default_threshold) (strip " Buongiorno ")
  ∧ ∃ self' evs,
      translate down_provider (after_ciao default_threshold) " Buongiorno " false
        = (Some "<Ciao mondo!> [error]", self', evs)
      ∧ _last_source_text self' = "Ciao mondo!"
      ∧ _last_translation self' = "<Ciao mondo!>"
      ∧ cache self' = cache (after_ciao default_threshold)
      ∧ last evs = Some Stderr.
Proof.
  assert (strip " Buongiorno " ≠ EmptyString) as H1 by done.
  assert (similar_to_last (after_ciao default_threshold) (strip " Buongiorno ") false
          ≠ Some true) as H2 by (vm_compute; discriminate).
  assert (strip " Buongiorno " ∉ Cache.keys (cache (after_ciao default_threshold))) as H3.
  { apply CacheFacts.od_contains_false. reflexivity. }
  assert (provider_fails down_provider (after_ciao default_threshold) (strip " Buongiorno "))
    as H4 by reflexivity.
  split_and!; [exact H1 | exact H2 | exact H3 | exact H4 |].
  exact (provider_failure_falls_back down_provider (after_ciao default_threshold)
           " Buongiorno " false H1 H2 H3 H4).
Defined.

(** After a call that succeeded through the cache or the service, the
    answer is the cached value of the stripped input. *)
Lemma translate_success_cached env self text r self' evs N :
  (1 ≤ N)%Z → Cache.wf N (cache self) →
  strip text ≠ EmptyString →
  translate env self text true = (Some r, self', evs) →
  Stderr ∉ evs →
  Cache.wf N (cache self')
  ∧ Cache.od_get (strip text) (Cache.cache (cache self')) = Some r.
Proof.
  intros HN Hwf Hne. unfold translate. rewrite not_blank by done.
  unfold similar_to_last. simpl.
  destruct Hwf as (HM & Hnd & Hlen).
  destruct (cache self) as [M d] eqn:Hcache. unfold Cache.keys in *. simpl in *.
  subst M. destruct (decide (strip text ∈ d.*1)) as [Hin|Hnin].
  - destruct (CacheFacts.keys_split _ d Hnd Hin) as (l & w & rr & -> & Hl & Hr).
    pose proof (CacheFacts.wf_get N (strip text)
                  {| Cache.max_size := N; Cache.cache := l ++ (strip text, w) :: rr |}
                  (conj eq_refl (conj Hnd Hlen))) as Hwf'.
    rewrite CacheFacts.get_hit in Hwf' by done.
    rewrite CacheFacts.get_hit by done. intros [= <- <- <-] _. simpl. split; [done|].
    apply CacheFacts.od_get_snoc. by rewrite fmap_app, not_elem_of_app.
  - rewrite CacheFacts.get_miss by done.
    destruct (try_translate env _ (strip text)) as [[[t|] s1] e1] eqn:Htry.
    + intros [= <- <- <-] _.
      pose proof (try_translate_success env
                    (with_cache {| Cache.max_size := N; Cache.cache := d |} self)
                    (strip text) t) as Hs.
      rewrite Htry in Hs. destruct (Hs eq_refl) as (Hc & _ & _ & _).
      simpl in Hc. rewrite Hc. simpl. split.
      * apply CacheFacts.wf_put. by split_and!.
      * rewrite CacheFacts.put_miss by done. simpl.
        destruct (Z.gtb_spec (Z.of_nat (length d) + 1) N) as [Hgt|Hle].
        -- destruct d as [|[k1 v1] d]; simpl in *; [lia|].
           apply CacheFacts.od_get_snoc. by apply not_elem_of_cons in Hnin as [_ ?].
        -- by apply CacheFacts.od_get_snoc.
    + intros [= <- <- <-] Herr. exfalso. apply Herr.
      rewrite app_comm_cons, elem_of_app. right. left.
Qed.

(** C8, as the code has it: the cache key is the stripped text, case
    included.  In a translator whose cache has capacity [N >= 1], after a
    successful [translate(a, force=True)] on a non-blank [a], a
    [translate(b, force=True)] with [b] equal to [a] once stripped returns
    the same translation from the cache, without building or calling the
    service. *)
Theorem stripped_text_is_the_cache_key (env1 env2 : Provider) (self self1 : Translator)
    (a b r : string) (evs : list event) (N : Z) :
  (1 ≤ N)%Z → Cache.wf N (cache self) →
  strip a ≠ EmptyString →
  translate env1 self a true = (Some r, self1, evs) →
  Stderr ∉ evs →
  strip b = strip a →
  ∃ self2, translate env2 self1 b true = (Some r, self2, [CacheGet (strip a)]).
Proof.
  intros HN Hwf Hne Hrun Herr Hab.
  destruct (translate_success_cached env1 self a r self1 evs N HN Hwf Hne Hrun Herr)
    as ((HM & Hnd & Hlen) & Hget).
  unfold translate. rewrite not_blank by (by rewrite Hab). rewrite Hab.
  unfold similar_to_last. simpl.
  destruct (cache self1) as [M d]. unfold Cache.keys in *. simpl in *.
  pose proof (CacheFacts.od_get_Some_elem _ _ _ Hget) as Hin.
  destruct (CacheFacts.keys_split _ d Hnd Hin) as (l & w & rr & -> & Hl & Hr).
  rewrite CacheFacts.od_get_mid in Hget by done. injection Hget as ->.
  rewrite CacheFacts.get_hit by done. by eexists.
Qed.

Lemma stripped_text_is_the_cache_key_witness :
  (1 ≤ 100)%Z
  ∧ strip "Ciao mondo!" ≠ EmptyString
  ∧ strip "  Ciao mondo! " = strip "Ciao mondo!"
  ∧ ∃ self2,
      translate down_provider (after_ciao default_threshold) "  Ciao mondo! " true
      = (Some "<Ciao mondo!>", self2, [CacheGet "Ciao mondo!"]).
Proof.
  split_and!; [lia | done | done |].
  refine (stripped_text_is_the_cache_key echo_provider down_provider
            (init echo_provider "it" "en" 100 default_threshold) (after_ciao default_threshold)
            "Ciao mondo!" "  Ciao mondo! " "<Ciao mondo!>"
            [CacheGet "Ciao mondo!"; ProviderCall "Ciao mondo!";
             CachePut "Ciao mondo!" "<Ciao mondo!>"] 100 _ _ _ _ _ _).
  - lia.
  - apply CacheFacts.wf_init. lia.
  - done.
  - reflexivity.
  - rewrite !not_elem_of_cons. split_and!; [done..|apply not_elem_of_nil].
  - reflexivity.
Defined.

(** C8 as stated fails: "Ciao mondo!" and "ciao mondo!" normalize to the
    same text, and after a successful forced translation of the first, the
    forced translation of the second calls the service again. *)
Lemma case_variant_is_not_cached :
  lower (strip "ciao mondo!") = lower (strip "Ciao mondo!")
  ∧ translate echo_provider (init echo_provider "it" "en" 100 default_threshold)
      "Ciao mondo!" true
    = (Some "<Ciao mondo!>", after_ciao default_threshold,
       [CacheGet "Ciao mondo!"; ProviderCall "Ciao mondo!";
        CachePut "Ciao mondo!" "<Ciao mondo!>"])
  ∧ (translate echo_provider (after_ciao default_threshold) "ciao mondo!" true).2
    = [CacheGet "ciao mondo!"; ProviderCall "ciao mondo!";
       CachePut "ciao mondo!" "<ciao mondo!>"]
  ∧ (translate echo_provider (after_ciao default_threshold) "ciao mondo!" true).1.1
    ≠ Some "<Ciao mondo!>".
Proof. split_and!; [reflexivity..|]. vm_compute. discriminate. Qed.

(** C9, as the code has it: a call on a non-blank input that returns without
    an error either reuses the last translation, and then leaves the
    translator as it was (the last translation is the string returned, the
    last source text keeps its former value), or answers from the cache or
    the service, and then the last source text is the stripped input and the
    last translation the string returned. *)
Theorem translate_remembers_its_answer (env : Provider) (self self' : Translator)
    (text r : string) (force : bool) (evs : list event) :
  strip text ≠ EmptyString →
  translate env self text force = (Some r, self', evs) →
  Stderr ∉ evs →
  (similar_to_last self (strip text) force = Some true
     ∧ self' = self ∧ r = _last_translation self)
  ∨ (similar_to_last self (strip text) force = Some false
     ∧ _last_source_text self' = strip text ∧ _last_translation self' = r).
Proof.
  intros Hne. unfold translate. rewrite not_blank by done.
  destruct (similar_to_last_total self (strip text) force) as [[] ->].
  - intros [= <- <- <-] _. by left.
  - destruct (Cache.get (strip text) (cache self)) as [[cached|] c].
    + intros [= <- <- <-] _. by right.
    + destruct (try_translate env _ (strip text)) as [[[t|] s1] e1] eqn:Htry.
      * intros [= <- <- <-] _. right.
        pose proof (try_translate_success env (with_cache c self) (strip text) t) as Hs.
        rewrite Htry in Hs. by destruct (Hs eq_refl) as (_ & ? & ? & _).
      * intros [= <- <- <-] Herr. exfalso. apply Herr.
        rewrite app_comm_cons, elem_of_app. right. left.
Qed.

Lemma translate_remembers_its_answer_witness :
  strip " Buongiorno " ≠ EmptyString
  ∧ translate echo_provider (after_ciao default_threshold) " Buongiorno " false
    = (Some "<Buongiorno>",
       (translate echo_provider (after_ciao default_threshold) " Buongiorno " false).1.2,
       [CacheGet "Buongiorno"; ProviderCall "Buongiorno";
        CachePut "Buongiorno" "<Buongiorno>"])
  ∧ ((similar_to_last (after_ciao default_threshold) (strip " Buongiorno ") false = Some true
      ∧ (translate echo_provider (after_ciao default_threshold) " Buongiorno " false).1.2
        = after_ciao default_threshold
      ∧ "<Buongiorno>" = _last_translation (after_ciao default_threshold))
     ∨ (similar_to_last (after_ciao default_threshold) (strip " Buongiorno ") false = Some false
        ∧ _last_source_text
            (translate echo_provider (after_ciao default_threshold) " Buongiorno " false).1.2
          = strip " Buongiorno "
        ∧ _last_translation
            (translate echo_provider (after_ciao default_threshold) " Buongiorno " false).1.2
          = "<Buongiorno>")).
Proof.
  split_and!; [done | reflexivity |].
  refine (translate_remembers_its_answer echo_provider (after_ciao default_threshold) _
            " Buongiorno " "<Buongiorno>" false
            [CacheGet "Buongiorno"; ProviderCall "Buongiorno";
             CachePut "Buongiorno" "<Buongiorno>"] _ _ _).
  - done.
  - reflexivity.
  - rewrite !not_elem_of_cons. split_and!; [done..|apply not_elem_of_nil].
Defined.

(** C9 as stated fails on the reuse path: "Ciao mondo" is close enough to
    the last source text "Ciao mondo!", the last translation is returned, and
    the last source text is still "Ciao mondo!", not the input (stripped, or
    lower-cased as well). *)
Lemma reuse_keeps_the_last_source_text :
  "Ciao mondo" ≠ EmptyString
  ∧ translate down_provider (after_ciao default_threshold) "Ciao mondo" false
    = (Some "<Ciao mondo!>", after_ciao default_threshold, [])
  ∧ _last_translation (after_ciao default_threshold) = "<Ciao mondo!>"
  ∧ _last_source_text (after_ciao default_threshold) ≠ strip "Ciao mondo"
  ∧ _last_source_text (after_ciao default_threshold) ≠ lower (strip "Ciao mondo").
Proof. split_and!; [done | reflexivity | reflexivity | done | done]. Qed.

(** *** What a call leaves in place *)

Lemma with_cache_same self : with_cache (cache self) self = self.
Proof. by destruct self. Qed.

Lemma try_translate_config env self text :
  source_lang (try_translate env self text).1.2 = source_lang self
  ∧ target_lang (try_translate env self text).1.2 = target_lang self
  ∧ similarity_threshold (try_translate env self text).1.2 = similarity_threshold self
  ∧ Cache.max_size (cache (try_translate env self text).1.2)
    = Cache.max_size (cache self).
Proof.
  unfold try_translate.
  destruct (translator self) as [[source target]|]; simpl.
  - destruct (respond env source target text); simpl; [|done].
    split_and!; [done..|]. apply (CacheFacts.max_size_step _ (Cache.Put text s)).
  - destruct (construct env _ _); simpl; [|done].
    destruct (respond env _ _ text); simpl; [|done].
    split_and!; [done..|]. apply (CacheFacts.max_size_step _ (Cache.Put text s)).
Qed.

Lemma try_translate_translator env self text h :
  translator self = Some h →
  translator (try_translate env self text).1.2 = Some h
  ∧ ∀ source target, Construct source target ∉ (try_translate env self text).2.
Proof.
  intros Hh. unfold try_translate. rewrite Hh. destruct h as [source target].
  destruct (respond env source target text); simpl.
  - split; [done|]. intros ??. rewrite !not_elem_of_cons.
    split_and!; [done..|apply not_elem_of_nil].
  - split; [done|]. intros ??. rewrite !not_elem_of_cons.
    split_and!; [done..|apply not_elem_of_nil].
Qed.

(** The four ways a call on a non-blank text ends: reuse of the last
    translation, cache hit, answer of the service, failure of the service. *)
Lemma translate_outcomes env self text force N :
  strip text ≠ EmptyString → Cache.wf N (cache self) →
  (similar_to_last self (strip text) force = Some true
   ∧ translate env self text force = (Some (_last_translation self), self, []))
  ∨ (similar_to_last self (strip text) force = Some false
     ∧ ∃ w rest,
         Cache.od_get (strip text) (Cache.cache (cache self)) = Some w
         ∧ (strip text ∉ rest.*1)
         ∧ Cache.wf N {| Cache.max_size := N;
                         Cache.cache := rest ++ [(strip text, w)] |}
         ∧ translate env self text force
           = (Some w,
              with_last (strip text) w
                (with_cache {| Cache.max_size := N;
                               Cache.cache := rest ++ [(strip text, w)] |} self),
              [CacheGet (strip text)]))
  ∨ (similar_to_last self (strip text) force = Some false
     ∧ (strip text ∉ Cache.keys (cache self))
     ∧ ∃ r, (try_translate env self (strip text)).1.1 = Some r
            ∧ translate env self text force
              = (Some r, (try_translate env self (strip text)).1.2,
                 CacheGet (strip text) :: (try_translate env self (strip text)).2))
  ∨ (similar_to_last self (strip text) force = Some false
     ∧ (strip text ∉ Cache.keys (cache self))
     ∧ (try_translate env self (strip text)).1.1 = None
     ∧ translate env self text force
       = (Some (fallback self (strip text)),
          (try_translate env self (strip text)).1.2,
          CacheGet (strip text) :: (try_translate env self (strip text)).2 ++ [Stderr])).
Proof.
  intros Hne Hwf. unfold translate. rewrite not_blank by done.
  destruct (similar_to_last_total self (strip text) force) as [[] ->];
    [by left|right].
  destruct (Cache.od_get (strip text) (Cache.cache (cache self))) as [w|] eqn:Hget.
  - left. split; [done|].
    pose proof (CacheFacts.wf_get N (strip text) (cache self) Hwf) as Hwf'.
    destruct (CacheFacts.get_hit_ends_with N _ w _ Hwf Hget) as (rest & Heq & Hrest).
    rewrite Heq in Hwf' |- *. by exists w, rest.
  - right. apply CacheFacts.od_get_None in Hget.
    rewrite CacheFacts.get_miss by done. rewrite with_cache_same.
    pose proof (try_translate_failure_frame env self (strip text)) as Hfail.
    destruct (try_translate env self (strip text)) as [[[r|] s1] e1]; simpl in *.
    + left. split_and!; [done..|]. by exists r.
    + right. split_and!; [done..|]. destruct (Hfail eq_refl) as (_ & _ & Ht).
      unfold fallback. by rewrite Ht.
Qed.

(** X16: [translate] never changes the language pair, the threshold or the
    capacity of the cache, and it keeps a translator object that exists,
    without building another one. *)
Theorem translate_keeps_configuration (env : Provider) (self : Translator)
    (text : string) (force : bool) :
  source_lang (translate env self text force).1.2 = source_lang self
  ∧ target_lang (translate env self text force).1.2 = target_lang self
  ∧ similarity_threshold (translate env self text force).1.2
    = similarity_threshold self
  ∧ Cache.max_size (cache (translate env self text force).1.2)
    = Cache.max_size (cache self)
  ∧ ∀ h, translator self = Some h →
      translator (translate env self text force).1.2 = Some h
      ∧ ∀ source target,
          Construct source target ∉ (translate env self text force).2.
Proof.
  unfold translate. destruct (is_empty text || _).
  { split_and!; [done..|]. intros h Hh. split; [done|]. intros ??.
    apply not_elem_of_nil. }
  destruct (similar_to_last_total self (strip text) force) as [[] ->].
  { split_and!; [done..|]. intros h Hh. split; [done|]. intros ??.
    apply not_elem_of_nil. }
  pose proof (CacheFacts.max_size_step (cache self) (Cache.Get (strip text))) as HM.
  simpl in HM.
  destruct (Cache.get (strip text) (cache self)) as [[cached|] c]; simpl in HM.
  { simpl. split_and!; [done..|]. intros h Hh. split; [done|]. intros ??.
    rewrite not_elem_of_cons. split; [done|apply not_elem_of_nil]. }
  pose proof (try_translate_config env (with_cache c self) (strip text))
    as (Hs & Ht & Hth & Hmax).
  pose proof (try_translate_translator env (with_cache c self) (strip text)) as Htr.
  destruct (try_translate env (with_cache c self) (strip text)) as [[[r|] s1] e1];
    simpl in *.
  - split_and!; [done..|congruence|]. intros h Hh.
    destruct (Htr h Hh) as [? Hev]. split; [done|]. intros ??.
    rewrite not_elem_of_cons. split; [done|apply Hev].
  - split_and!; [done..|congruence|]. intros h Hh.
    destruct (Htr h Hh) as [? Hev]. split; [done|]. intros ??.
    rewrite not_elem_of_cons, not_elem_of_app, not_elem_of_cons.
    split_and!; [done|apply Hev|done|apply not_elem_of_nil].
Qed.

(** *** Invariants along every sequence of calls *)

Lemma translate_keeps_wf env self text force N :
  Cache.wf N (cache self) → Cache.wf N (cache (translate env self text force).1.2).
Proof.
  intros Hwf. destruct (decide (strip text = EmptyString)) as [Hblank|Hne].
  { unfold translate. apply is_empty_true in Hblank. rewrite Hblank.
    by rewrite orb_true_r. }
  destruct (translate_outcomes env self text force N Hne Hwf)
    as [[_ ->]|[(_ & w & rest & Hget & Hrest & Hwf' & ->)|[(_ & Hmiss & r & Hr & ->)
       |(_ & Hmiss & Hnone & ->)]]]; simpl.
  - done.
  - done.
  - destruct (try_translate_success env self (strip text) r Hr) as (-> & _).
    by apply CacheFacts.wf_put.
  - destruct (try_translate_failure_frame env self (strip text) Hnone) as (-> & _).
    done.
Qed.

Lemma set_languages_cases env self source target :
  set_languages env self source target = self
  ∨ (set_languages env self source target
     = clear_cache
         (with_translator (Some (source, target))
            {| source_lang := source; target_lang := target;
               similarity_threshold := similarity_threshold self;
               cache := cache self;
               _last_source_text := _last_source_text self;
               _last_translation := _last_translation self;
               translator := translator self |})
     ∧ construct env source target = true)
  ∨ (cache (set_languages env self source target) = cache self
     ∧ _last_source_text (set_languages env self source target)
       = _last_source_text self
     ∧ _last_translation (set_languages env self source target)
       = _last_translation self).
Proof.
  unfold set_languages. destruct (_ || _); [|by left].
  destruct (construct env source target); [right; left|right; right]; done.
Qed.

Lemma call_step_wf N self c :
  Cache.wf N (cache self) → Cache.wf N (cache (call_step self c)).
Proof.
  intros Hwf. destruct c as [env text force|env source target|]; simpl.
  - by apply translate_keeps_wf.
  - destruct (set_languages_cases env self source target)
      as [->|[[-> _]|(-> & _)]]; [done| |done].
    simpl. by apply CacheFacts.wf_clear.
  - by apply CacheFacts.wf_clear.
Qed.

Lemma calls_wf N self cs :
  Cache.wf N (cache self) → Cache.wf N (cache (calls self cs)).
Proof.
  revert self. induction cs as [|c cs IH]; intros self Hwf; [done|].
  simpl. by apply IH, call_step_wf.
Qed.

Lemma calls_snoc self cs c : calls self (cs ++ [c]) = call_step (calls self cs) c.
Proof. unfold calls. by rewrite foldl_snoc. Qed.

Lemma call_step_last_pair N self c :
  (1 ≤ N)%Z → Cache.wf N (cache self) →
  last_pair_cached self → last_pair_cached (call_step self c).
Proof.
  intros HN Hwf Hinv. destruct c as [env text force|env source target|]; simpl.
  - destruct (decide (strip text = EmptyString)) as [Hblank|Hne].
    { unfold translate. apply is_empty_true in Hblank. rewrite Hblank.
      by rewrite orb_true_r. }
    destruct (translate_outcomes env self text force N Hne Hwf)
      as [[_ ->]|[(_ & w & rest & Hget & Hrest & Hwf' & ->)
         |[(_ & Hmiss & r & Hr & ->)|(_ & Hmiss & Hnone & ->)]]]; simpl.
    + done.
    + right. simpl. split; [done|]. by rewrite last_snoc.
    + destruct (try_translate_success env self (strip text) r Hr)
        as (Hc & Hs & Ht & _).
      right. rewrite Hc, Hs, Ht. split; [done|].
      destruct (CacheFacts.put_ends_with N (strip text) r (cache self) HN Hwf)
        as (rest & -> & _).
      simpl. by rewrite last_snoc.
    + destruct (try_translate_failure_frame env self (strip text) Hnone)
        as (Hc & Hs & Ht).
      unfold last_pair_cached. by rewrite Hc, Hs, Ht.
  - destruct (set_languages_cases env self source target)
      as [->|[[-> _]|(Hc & Hs & Ht)]]; [done| |].
    + by left.
    + unfold last_pair_cached. by rewrite Hc, Hs, Ht.
  - by left.
Qed.

(** X17: along every sequence of translate, set_languages and clear_cache
    calls on a translator created with [cache_size = N >= 0], the cache holds
    at most [N] entries and no key twice. *)
Theorem translator_cache_stays_bounded (env : Provider) (source target : string)
    (N : Z) (threshold : Binary64.float) (cs : list call) :
  (0 ≤ N)%Z →
  let self := calls (init env source target N threshold) cs in
  (Z.of_nat (length (Cache.cache (cache self))) ≤ N)%Z
  ∧ NoDup (Cache.keys (cache self)).
Proof.
  intros HN self.
  destruct (calls_wf N (init env source target N threshold) cs) as (_ & Hnd & Hlen).
  { simpl. by apply CacheFacts.wf_init. }
  done.
Qed.

(** X18: along every sequence of calls on a translator created with
    [cache_size >= 1], the last pair is either empty or the most recently
    used entry of the cache: what the similarity short-circuit returns is the
    translation cached for the last source text. *)
Theorem last_pair_is_most_recent_entry (env : Provider) (source target : string)
    (N : Z) (threshold : Binary64.float) (cs : list call) :
  (1 ≤ N)%Z →
  last_pair_cached (calls (init env source target N threshold) cs).
Proof.
  intros HN. induction cs as [|c cs IH] using rev_ind; [by left|].
  rewrite calls_snoc. apply (call_step_last_pair N); [done| |done].
  apply calls_wf. simpl. apply CacheFacts.wf_init. lia.
Qed.

(** X19: repeating a call.  When a non-forced call on a non-blank text
    returned without an error and the threshold is at most 1, the same call
    again returns the same string, does nothing else (no cache lookup, no
    service) and leaves the translator as it is. *)
Theorem repeated_translate_is_reused (env1 env2 : Provider) (self self1 : Translator)
    (text r : string) (evs : list event) (N : Z) :
  Cache.wf N (cache self) →
  strip text ≠ EmptyString →
  Binary64.ge Binary64.one (similarity_threshold self) = true →
  translate env1 self text false = (Some r, self1, evs) →
  Stderr ∉ evs →
  translate env2 self1 text false = (Some r, self1, []).
Proof.
  intros Hwf Hne Hth Hrun Herr.
  assert (similar_to_last self (strip text) false = Some true ∧ self1 = self
            ∧ r = _last_translation self
          ∨ _last_source_text self1 = strip text ∧ _last_translation self1 = r
            ∧ similarity_threshold self1 = similarity_threshold self)
    as [(Hsim & -> & ->)|(Hs & Ht & Hth')].
  { destruct (translate_outcomes env1 self text false N Hne Hwf)
      as [[Hsim Heq]|[(_ & w & rest & Hget & Hrest & Hwf' & Heq)
         |[(_ & Hmiss & r' & Hr & Heq)|(_ & Hmiss & Hnone & Heq)]]];
      rewrite Heq in Hrun.
    - injection Hrun as <- <- <-. by left.
    - injection Hrun as <- <- <-. by right.
    - injection Hrun as <- <- <-. right.
      destruct (try_translate_success env1 self (strip text) r' Hr) as (_ & ? & ? & _).
      destruct (try_translate_config env1 self (strip text)) as (_ & _ & ? & _).
      done.
    - injection Hrun as <- <- <-. exfalso. apply Herr.
      rewrite app_comm_cons, elem_of_app. right. left. }
  - unfold translate. rewrite not_blank by done. by rewrite Hsim.
  - unfold translate. rewrite not_blank by done.
    unfold similar_to_last. rewrite Hs. simpl.
    assert (is_empty (strip text) = false) as -> by by apply is_empty_false.
    simpl. rewrite binary64_similarity_same by done. cbn [mbind option_bind].
    rewrite Hth', Hth. by rewrite Ht.
Qed.

Lemma repeated_translate_is_reused_witness :
  Cache.wf 100 (cache (init echo_provider "it" "en" 100 default_threshold))
  ∧ strip " Ciao mondo! " ≠ EmptyString
  ∧ Binary64.ge Binary64.one
      (similarity_threshold (init echo_provider "it" "en" 100 default_threshold)) = true
  ∧ (translate echo_provider (init echo_provider "it" "en" 100 default_threshold)
       " Ciao mondo! " false).1.1 = Some "<Ciao mondo!>"
  ∧ translate down_provider
      (translate echo_provider (init echo_provider "it" "en" 100 default_threshold)
         " Ciao mondo! " false).1.2 " Ciao mondo! " false
    = (Some "<Ciao mondo!>",
       (translate echo_provider (init echo_provider "it" "en" 100 default_threshold)
          " Ciao mondo! " false).1.2, []).
Proof.
  assert (Cache.wf 100 (cache (init echo_provider "it" "en" 100 default_threshold)))
    as Hwf by (apply CacheFacts.wf_init; lia).
  assert (Binary64.ge Binary64.one
            (similarity_threshold (init echo_provider "it" "en" 100 default_threshold))
          = true) as Hth by (vm_compute; reflexivity).
  split_and!; [exact Hwf | done | exact Hth | reflexivity |].
  refine (repeated_translate_is_reused echo_provider down_provider
            (init echo_provider "it" "en" 100 default_threshold) _ " Ciao mondo! "
            "<Ciao mondo!>"
            [CacheGet "Ciao mondo!"; ProviderCall "Ciao mondo!";
             CachePut "Ciao mondo!" "<Ciao mondo!>"] 100 Hwf _ Hth _ _).
  - done.
  - reflexivity.
  - rewrite !not_elem_of_cons. split_and!; [done..|apply not_elem_of_nil].
Defined.

Lemma translator_cache_stays_bounded_witness :
  (0 ≤ 1)%Z
  ∧ (Z.of_nat (length (Cache.cache (cache
       (calls (init echo_provider "it" "en" 1 default_threshold)
          [Translate echo_provider "Ciao" false;
           Translate echo_provider "Buongiorno a tutti" false;
           SetLanguages echo_provider "it" "fr";
           Translate down_provider "Grazie" true])))) ≤ 1)%Z
  ∧ NoDup (Cache.keys (cache
       (calls (init echo_provider "it" "en" 1 default_threshold)
          [Translate echo_provider "Ciao" false;
           Translate echo_provider "Buongiorno a tutti" false;
           SetLanguages echo_provider "it" "fr";
           Translate down_provider "Grazie" true]))).
Proof.
  split; [lia|].
  apply (translator_cache_stays_bounded echo_provider "it" "en" 1 default_threshold
           [Translate echo_provider "Ciao" false;
            Translate echo_provider "Buongiorno a tutti" false;
            SetLanguages echo_provider "it" "fr";
            Translate down_provider "Grazie" true]).
  lia.
Defined.

Lemma last_pair_is_most_recent_entry_witness :
  (1 ≤ 2)%Z
  ∧ last_pair_cached
      (calls (init echo_provider "it" "en" 2 default_threshold)
         [Translate echo_provider "Ciao" false;
          Translate echo_provider "Buongiorno a tutti" false;
          Translate echo_provider "Ciao" true;
          Translate down_provider "Grazie" false])
  ∧ Cache.cache (cache
      (calls (init echo_provider "it" "en" 2 default_threshold)
         [Translate echo_provider "Ciao" false;
          Translate echo_provider "Buongiorno a tutti" false;
          Translate echo_provider "Ciao" true;
          Translate down_provider "Grazie" false]))
    = [("Buongiorno a tutti", "<Buongiorno a tutti>"); ("Ciao", "<Ciao>")].
Proof.
  split_and!; [lia| |reflexivity].
  apply (last_pair_is_most_recent_entry echo_provider "it" "en" 2 default_threshold).
  lia.
Defined.

(** *** Resets *)

(** A translator with an empty cache and an empty last pair consults the
    service on every non-blank text. *)
Lemma translate_from_scratch env self text force :
  strip text ≠ EmptyString →
  Cache.cache (cache self) = [] →
  _last_source_text self = EmptyString →
  translate env self text force
  = match (try_translate env self (strip text)).1.1 with
    | Some r =>
        (Some r, (try_translate env self (strip text)).1.2,
         CacheGet (strip text) :: (try_translate env self (strip text)).2)
    | None =>
        (Some (fallback (try_translate env self (strip text)).1.2 (strip text)),
         (try_translate env self (strip text)).1.2,
         CacheGet (strip text) :: (try_translate env self (strip text)).2 ++ [Stderr])
    end.
Proof.
  intros Hne Hcache Hlast. unfold translate. rewrite not_blank by done.
  unfold similar_to_last. rewrite Hlast. simpl. rewrite andb_false_r.
  rewrite CacheFacts.get_miss, with_cache_same.
  - by destruct (try_translate env self (strip text)) as [[[r|] s1] e1].
  - unfold Cache.keys. rewrite Hcache. apply not_elem_of_nil.
Qed.

(** X20: after [set_languages] with a changed pair and a constructor that
    succeeds, nothing of the former pair is served: the next call on a
    non-blank text looks the text up, calls the service built for the new
    pair, and returns its answer, or the stripped text itself when the
    service fails. *)
Theorem language_change_discards_old_translations (env1 env2 : Provider)
    (self : Translator) (source target text : string) (force : bool) :
  source ≠ source_lang self ∨ target ≠ target_lang self →
  construct env1 source target = true →
  strip text ≠ EmptyString →
  (translate env2 (set_languages env1 self source target) text force).1.1
  = Some (default (strip text) (respond env2 source target (strip text)))
  ∧ (translate env2 (set_languages env1 self source target) text force).2
    = CacheGet (strip text) :: ProviderCall (strip text)
      :: match respond env2 source target (strip text) with
         | Some r => [CachePut (strip text) r]
         | None => [Stderr]
         end.
Proof.
  intros Hchanged Hok Hne.
  assert (set_languages env1 self source target
          = clear_cache
              (with_translator (Some (source, target))
                 {| source_lang := source; target_lang := target;
                    similarity_threshold := similarity_threshold self;
                    cache := cache self;
                    _last_source_text := _last_source_text self;
                    _last_translation := _last_translation self;
                    translator := translator self |})) as ->.
  { unfold set_languages. rewrite Hok.
    destruct Hchanged as [Hs|Ht].
    - by rewrite (bool_decide_eq_true_2 _ Hs).
    - rewrite (bool_decide_eq_true_2 _ Ht). by rewrite orb_true_r. }
  rewrite translate_from_scratch by done.
  unfold try_translate. simpl.
  by destruct (respond env2 source target (strip text)).
Qed.

Lemma language_change_discards_old_translations_witness :
  ("it" ≠ source_lang (after_ciao default_threshold)
   ∨ "fr" ≠ target_lang (after_ciao default_threshold))
  ∧ construct echo_provider "it" "fr" = true
  ∧ strip "Ciao mondo!" ≠ EmptyString
  ∧ (translate down_provider
       (set_languages echo_provider (after_ciao default_threshold) "it" "fr")
       "Ciao mondo!" false).1.1 = Some "Ciao mondo!"
  ∧ (translate down_provider
       (set_languages echo_provider (after_ciao default_threshold) "it" "fr")
       "Ciao mondo!" false).2
    = [CacheGet "Ciao mondo!"; ProviderCall "Ciao mondo!"; Stderr].
Proof.
  assert ("it" ≠ source_lang (after_ciao default_threshold)
          ∨ "fr" ≠ target_lang (after_ciao default_threshold)) as Hchanged by (by right).
  split_and!; [exact Hchanged | reflexivity | done | ..];
    apply (language_change_discards_old_translations echo_provider down_provider
             (after_ciao default_threshold) "it" "fr" "Ciao mondo!" false Hchanged);
    done.
Defined.

(** X21: after [clear_cache] every call on a non-blank text goes to the
    service: the text is looked up and missed, the attempt is made, and the
    result is its answer, or the stripped text itself when it fails (never a
    former translation marked as an error). *)
Theorem clear_cache_forgets (env : Provider) (self : Translator)
    (text : string) (force : bool) :
  strip text ≠ EmptyString →
  (translate env (clear_cache self) text force).1.1
  = Some (default (strip text)
            (try_translate env (clear_cache self) (strip text)).1.1)
  ∧ ∃ evs, (translate env (clear_cache self) text force).2
           = CacheGet (strip text) :: evs
           ∧ evs ≠ []
           ∧ (ProviderCall (strip text) ∈ evs
              ∨ Construct (source_lang self) (target_lang self) ∈ evs).
Proof.
  intros Hne. rewrite translate_from_scratch by done.
  unfold try_translate. simpl.
  destruct (translator self) as [[source target]|]; simpl.
  - destruct (respond env source target (strip text)); simpl.
    + split; [done|]. eexists. split_and!; [done..|]. left. left.
    + split; [done|]. eexists. split_and!; [done..|]. left. left.
  - destruct (construct env _ _); simpl.
    + destruct (respond env _ _ (strip text)); simpl.
      * split; [done|]. eexists. split_and!; [done..|]. right. left.
      * split; [done|]. eexists. split_and!; [done..|]. right. left.
    + split; [done|]. eexists. split_and!; [done..|]. right. left.
Qed.

Lemma clear_cache_forgets_witness :
  strip "Ciao mondo!" ≠ EmptyString
  ∧ (translate down_provider (clear_cache (after_ciao default_threshold))
       "Ciao mondo!" false).1.1 = Some "Ciao mondo!"
  ∧ ∃ evs, (translate down_provider (clear_cache (after_ciao default_threshold))
              "Ciao mondo!" false).2 = CacheGet "Ciao mondo!" :: evs
           ∧ evs ≠ []
           ∧ (ProviderCall "Ciao mondo!" ∈ evs ∨ Construct "it" "en" ∈ evs).
Proof.
  split; [done|].
  apply (clear_cache_forgets down_provider (after_ciao default_threshold) "Ciao mondo!" false).
  done.
Defined.

End TranslateFacts.

(** ** ocr.py: [OCREngine] *)

Module OcrFacts.

Import Utils UtilsFacts Ocr.

Section OCREngine.
Context `{Imaging}.

(** *** Facts on [extract_text] *)

Lemma psm_loop_no_stderr tess img language first modes all_results :
  Stderr ∉ (psm_loop tess img language first modes all_results).2.
Proof.
  revert all_results. induction modes as [|psm modes IH]; intros all_results; simpl.
  - apply not_elem_of_nil.
  - destruct (image_to_string tess img language _) as [text|].
    + destruct (negb _).
      * case_bool_decide.
        -- simpl. rewrite not_elem_of_cons. split; [done|apply not_elem_of_nil].
        -- specialize (IH (Cache.od_set psm (clean_ocr_text text) all_results)).
           destruct (psm_loop _ _ _ _ _ _) as [[b r] e]. simpl in *.
           rewrite not_elem_of_cons. done.
      * specialize (IH all_results).
        destruct (psm_loop _ _ _ _ _ _) as [[b r] e]. simpl in *.
        rewrite not_elem_of_cons. done.
    + specialize (IH all_results).
      destruct (psm_loop _ _ _ _ _ _) as [[b r] e]. simpl in *.
      rewrite not_elem_of_cons. done.
Qed.

(** After a call without an error the engine holds the text returned and
    the hash of the image. *)
Lemma extract_text_stores tess self image language text self' evs :
  extract_text tess self image language = (text, self', evs) →
  Stderr ∉ evs →
  _last_text self' = text
  ∧ _last_image_hash self' = Some (calculate_image_hash image).
Proof.
  unfold extract_text. case_bool_decide as Hhit.
  - intros [= <- <- <-] _. done.
  - destruct (if preprocess self then _ else _) as [processed|].
    + destruct (psm_loop _ _ _ _ _ _) as [[best results] e].
      intros [= <- <- <-] _. done.
    + intros [= <- <- <-] Herr. exfalso. apply Herr. left.
Qed.

(** C10: after a call of [extract_text] that completes without an error, a
    call that follows it with an image of the same raw bytes returns the same
    text, runs no OCR and leaves the engine as it is, whatever the language
    asked for. *)
Theorem extract_text_memoized (tess1 tess2 : Tesseract) (self self1 : OCREngine)
    (image1 image2 : Image) (language1 language2 text : string) (evs : list event) :
  extract_text tess1 self image1 language1 = (text, self1, evs) →
  Stderr ∉ evs →
  tobytes image2 = tobytes image1 →
  extract_text tess2 self1 image2 language2 = (text, self1, []).
Proof.
  intros Hrun Herr Hbytes.
  destruct (extract_text_stores _ _ _ _ _ _ _ Hrun Herr) as [Htext Hhash].
  unfold extract_text, calculate_image_hash in *.
  rewrite Hbytes, Hhash, bool_decide_eq_true_2 by done.
  by rewrite Htext.
Qed.

Lemma extract_text_no_error tess self image language :
  preprocess self = false ∨ is_Some (preprocess_image_for_ocr image) →
  Stderr ∉ (extract_text tess self image language).2.
Proof.
  intros Hpre. unfold extract_text. case_bool_decide; [apply not_elem_of_nil|].
  assert (is_Some (if preprocess self then preprocess_image_for_ocr image
                   else Some image)) as [processed ->].
  { destruct Hpre as [->|?]; [by eexists|]. by destruct (preprocess self). }
  pose proof (psm_loop_no_stderr tess processed language
                (hd 0%Z (psm_modes processed)) (psm_modes processed) []) as Hloop.
  by destruct (psm_loop _ _ _ _ _ _) as [[best results] e].
Qed.

End OCREngine.

Lemma extract_text_memoized_witness :
  extract_text line_reader fresh_engine frame "ita"
    = ("Ciao I mondo", (extract_text line_reader fresh_engine frame "ita").1.2,
       [ImageToString 6])
  ∧ tobytes same_bytes_frame = tobytes frame
  ∧ extract_text no_tesseract
      (extract_text line_reader fresh_engine frame "ita").1.2 same_bytes_frame "eng"
    = ("Ciao I mondo", (extract_text line_reader fresh_engine frame "ita").1.2, []).
Proof.
  split_and!; [reflexivity | reflexivity |].
  refine (extract_text_memoized line_reader no_tesseract fresh_engine _
            frame same_bytes_frame "ita" "eng" "Ciao I mondo" [ImageToString 6] _ _ _).
  - reflexivity.
  - rewrite not_elem_of_cons. split; [done|apply not_elem_of_nil].
  - reflexivity.
Defined.

(** *** The loop over the page segmentation modes *)

Section OCRLoop.
Context `{Imaging}.

Lemma psm_modes_cases (img : Image) :
  psm_modes img = [6; 3; 7]%Z ∨ psm_modes img = [7; 6; 3]%Z.
Proof.
  unfold psm_modes. destruct (size img) as [w h].
  destruct (negb _); [by left|by right].
Qed.

Lemma longest_spec (values : list string) (best : string) :
  (longest values best = best ∨ longest values best ∈ values)
  ∧ len best ≤ len (longest values best)
  ∧ ∀ v, v ∈ values → len v ≤ len (longest values best).
Proof.
  revert best. induction values as [|v values IH]; intros best; simpl.
  - split_and!; [by left|done|]. by intros v ?%elem_of_nil.
  - destruct (IH (if len best <? len v then v else best)) as (Hin & Hle & Hall).
    destruct (Nat.ltb_spec (len best) (len v)).
    + split_and!.
      * right. destruct Hin as [->|?]; [left|by right].
      * lia.
      * intros v' [->|?]%elem_of_cons; [done|by apply Hall].
    + split_and!.
      * destruct Hin as [?|?]; [by left|right; by right].
      * done.
      * intros v' [->|?]%elem_of_cons; [lia|by apply Hall].
Qed.

Lemma max_by_len_spec (values : list string) :
  (values = [] ∧ max_by_len values = EmptyString
   ∨ max_by_len values ∈ values)
  ∧ ∀ v, v ∈ values → len v ≤ len (max_by_len values).
Proof.
  destruct values as [|v values]; simpl.
  - split; [by left|]. by intros v ?%elem_of_nil.
  - destruct (longest_spec values v) as (Hin & Hle & Hall). split.
    + right. destruct Hin as [->|?]; [left|by right].
    + intros v' [->|?]%elem_of_cons; [done|by apply Hall].
Qed.

Lemma reading_clean tess (img : Image) language psm text :
  reading tess img language psm = Some text →
  text ≠ EmptyString ∧ strip text = text ∧ ("|"%char ∉ chars text).
Proof.
  unfold reading. destruct (image_to_string tess img language _) as [raw|]; [|done].
  simpl. destruct (is_empty (strip (clean_ocr_text raw))) eqn:Hblank; [done|].
  intros [= <-]. apply is_empty_false in Hblank. split_and!.
  - by intros Heq; rewrite Heq in Hblank.
  - apply clean_ocr_text_stripped.
  - apply clean_ocr_text_no_bar.
Qed.

(** The loop over modes none of which is the first one: it never breaks,
    and collects the readings in order. *)
Lemma psm_loop_others tess (img : Image) language first modes :
  ∀ acc : list (Z * string),
  first ∉ modes → NoDup modes → (∀ psm, psm ∈ modes → psm ∉ acc.*1) →
  ∃ found,
    psm_loop tess img language first modes acc
    = (EmptyString, acc ++ found, ImageToString <$> modes)
    ∧ found.*2 = readings tess img language modes.
Proof.
  induction modes as [|psm modes IH]; intros acc Hfirst Hnd Hacc.
  - exists []. by rewrite app_nil_r.
  - apply not_elem_of_cons in Hfirst as [Hne Hfirst].
    apply NoDup_cons in Hnd as [Hpsm Hnd].
    cbn [psm_loop]. unfold readings. cbn [omap list_omap]. unfold reading at 1.
    destruct (image_to_string tess img language (custom_config psm)) as [raw|];
      cbn [mbind option_bind].
    + destruct (is_empty (strip (clean_ocr_text raw))) eqn:Hblank;
        cbn [negb].
      * destruct (IH acc Hfirst Hnd) as (found & -> & Hfound).
        { intros p Hp. apply Hacc. by right. }
        by exists found.
      * rewrite bool_decide_eq_false_2 by congruence.
        rewrite CacheFacts.od_set_fresh by (apply Hacc; left).
        destruct (IH (acc ++ [(psm, clean_ocr_text raw)]) Hfirst Hnd)
          as (found & -> & Hfound).
        { intros p Hp. rewrite fmap_app, not_elem_of_app. split.
          - apply Hacc. by right.
          - simpl. rewrite not_elem_of_cons. split; [|apply not_elem_of_nil].
            by intros ->. }
        exists ((psm, clean_ocr_text raw) :: found). split.
        -- by rewrite <- app_assoc.
        -- simpl. f_equal. exact Hfound.
    + destruct (IH acc Hfirst Hnd) as (found & -> & Hfound).
      { intros p Hp. apply Hacc. by right. }
      by exists found.
Qed.

(** A call that is not answered from the memo and whose image can be
    processed: the first mode wins when it reads something, otherwise the
    longest reading of the other modes is returned. *)
Lemma extract_text_fresh tess self (image processed : Image) language :
  Some (calculate_image_hash image) ≠ _last_image_hash self →
  (if preprocess self then preprocess_image_for_ocr image else Some image)
  = Some processed →
  extract_text tess self image language
  = match reading tess processed language (hd 0%Z (psm_modes processed)) with
    | Some text =>
        (text, remember self image text,
         [ImageToString (hd 0%Z (psm_modes processed))])
    | None =>
        (max_by_len (readings tess processed language (psm_modes processed)),
         remember self image
           (max_by_len (readings tess processed language (psm_modes processed))),
         ImageToString <$> psm_modes processed)
    end.
Proof.
  intros Hmemo Hproc. unfold extract_text.
  rewrite bool_decide_eq_false_2 by done. rewrite Hproc.
  assert (∃ first rest, psm_modes processed = first :: rest
                        ∧ (first ∉ rest) ∧ NoDup rest)
    as (first & rest & Hmodes & Hf & Hnd).
  { destruct (psm_modes_cases processed) as [-> | ->]; eexists _, _;
      (split; [done|]); split;
      rewrite ?NoDup_cons, ?not_elem_of_cons;
      split_and!; try done; try apply not_elem_of_nil; apply NoDup_nil_2. }
  rewrite Hmodes. cbn [hd psm_loop]. unfold readings. cbn [omap list_omap].
  fold (readings tess processed language rest).
  pose proof (eq_refl (reading tess processed language first)) as Hrd.
  unfold reading at 2 in Hrd.
  destruct (image_to_string tess processed language (custom_config first)) as [raw|];
    cbn [mbind option_bind] in *.
  - destruct (is_empty (strip (clean_ocr_text raw))) eqn:Hblank;
      cbn [negb]; rewrite Hrd.
    + destruct (psm_loop_others tess processed language first rest [] Hf Hnd)
        as (found & -> & Hfound).
      { intros p _. apply not_elem_of_nil. }
      rewrite <- Hfound. unfold remember. simpl.
      by destruct found as [|kv found].
    + rewrite bool_decide_eq_true_2 by done.
      assert (is_empty (clean_ocr_text raw) = false) as ->.
      { apply is_empty_false. apply is_empty_false in Hblank.
        by intros Heq; rewrite Heq in Hblank. }
      done.
  - rewrite Hrd.
    destruct (psm_loop_others tess processed language first rest [] Hf Hnd)
      as (found & -> & Hfound).
    { intros p _. apply not_elem_of_nil. }
    rewrite <- Hfound. unfold remember. simpl.
    by destruct found as [|kv found].
Qed.

(** X22: a call of [extract_text] that is not answered from the memo and
    whose image can be processed: when the first mode reads something, that
    text is returned after one run of the OCR program; otherwise all three
    modes are run, in the order of [psm_modes], and the text returned is a
    longest one of what they read (the empty string when none reads
    anything).  In both cases the text is stored with the hash of the
    image. *)
Theorem extract_text_picks_best_reading (tess : Tesseract) (self : OCREngine)
    (image processed : Image) (language : string) :
  Some (calculate_image_hash image) ≠ _last_image_hash self →
  (if preprocess self then preprocess_image_for_ocr image else Some image)
  = Some processed →
  let modes := psm_modes processed in
  let result := extract_text tess self image language in
  result.1.2 = remember self image result.1.1
  ∧ (∀ text, reading tess processed language (hd 0%Z modes) = Some text →
       result.1.1 = text ∧ result.2 = [ImageToString (hd 0%Z modes)])
  ∧ (reading tess processed language (hd 0%Z modes) = None →
       result.2 = ImageToString <$> modes
       ∧ length modes = 3
       ∧ (readings tess processed language modes = [] ∧ result.1.1 = EmptyString
          ∨ result.1.1 ∈ readings tess processed language modes)
       ∧ ∀ text, text ∈ readings tess processed language modes →
           len text ≤ len result.1.1).
Proof.
  intros Hmemo Hproc modes result. subst result.
  rewrite (extract_text_fresh tess self image processed language Hmemo Hproc).
  fold modes. split_and!.
  - by destruct (reading tess processed language (hd 0%Z modes)).
  - by intros text ->.
  - intros ->. simpl.
    destruct (max_by_len_spec (readings tess processed language modes)) as [Hin Hmax].
    split_and!; [done| |done..].
    subst modes. by destruct (psm_modes_cases processed) as [-> | ->].
Qed.

(** X23: the text such a call returns has no leading or trailing
    whitespace and no '|', and it is empty exactly when no mode reads
    anything. *)
Theorem extract_text_returns_clean_text (tess : Tesseract) (self : OCREngine)
    (image processed : Image) (language : string) :
  Some (calculate_image_hash image) ≠ _last_image_hash self →
  (if preprocess self then preprocess_image_for_ocr image else Some image)
  = Some processed →
  let text := (extract_text tess self image language).1.1 in
  strip text = text
  ∧ ("|"%char ∉ chars text)
  ∧ (text = EmptyString
     ↔ readings tess processed language (psm_modes processed) = []).
Proof.
  intros Hmemo Hproc text. subst text.
  rewrite (extract_text_fresh tess self image processed language Hmemo Hproc).
  assert (∀ t, t ∈ readings tess processed language (psm_modes processed) →
               t ≠ EmptyString ∧ strip t = t ∧ ("|"%char ∉ chars t)) as Hclean.
  { intros t Ht. unfold readings in Ht.
    apply list_elem_of_omap in Ht as (psm & _ & Hr). by eapply reading_clean. }
  destruct (reading tess processed language (hd 0%Z (psm_modes processed)))
    as [t|] eqn:Hfirst; simpl.
  - destruct (reading_clean _ _ _ _ _ Hfirst) as (Hne & Hs & Hbar).
    split_and!; [done..|]. split; [done|]. intros Hnil. exfalso.
    assert (t ∈ readings tess processed language (psm_modes processed)) as Hin.
    { apply list_elem_of_omap. exists (hd 0%Z (psm_modes processed)). split; [|done].
      destruct (psm_modes_cases processed) as [-> | ->]; left. }
    rewrite Hnil in Hin. by apply elem_of_nil in Hin.
  - destruct (max_by_len_spec (readings tess processed language (psm_modes processed)))
      as [[[Hnil ->]|Hin] _].
    + split_and!; [done|apply not_elem_of_nil|done].
    + destruct (Hclean _ Hin) as (Hne & Hs & Hbar). split_and!; [done..|].
      split; [done|]. intros Hnil. rewrite Hnil in Hin.
      by apply elem_of_nil in Hin.
Qed.

(** X24: the block modes come first exactly when the processed image is
    taller than three tenths of its width, or has no positive width; an
    image of ratio exactly 0.3 is treated as a single line. *)
Theorem psm_modes_by_aspect_ratio (processed : Image) :
  psm_modes processed
  = if bool_decide ((size processed).1 ≤ 0 ∨ 3 * (size processed).1 < 10 * (size processed).2)%Z
    then [6; 3; 7]%Z else [7; 6; 3]%Z.
Proof.
  unfold psm_modes. destruct (size processed) as [w h]. simpl.
  destruct (Z.ltb_spec 0 w) as [Hw|Hw].
  - assert (Qle_bool (inject_Z h / inject_Z w) (3 # 10) = bool_decide (10 * h ≤ 3 * w)%Z)
      as ->.
    { assert (0 < inject_Z w)%Q as Hpos.
      { change 0%Q with (inject_Z 0). by rewrite <- Zlt_Qlt. }
      case_bool_decide as Hle.
      - apply Qle_bool_iff. apply Qle_shift_div_r; [done|].
        unfold Qle, Qmult, inject_Z. simpl. lia.
      - destruct (Qle_bool _ _) eqn:Hq; [|done]. exfalso. apply Hle.
        apply Qle_bool_iff in Hq.
        assert (inject_Z h <= (3 # 10) * inject_Z w)%Q as Hq'.
        { assert (inject_Z h == inject_Z h / inject_Z w * inject_Z w)%Q as ->
            by (field; lra).
          apply Qmult_le_compat_r; [done|lra]. }
        unfold Qle, Qmult, inject_Z in Hq'. simpl in Hq'. lia. }
    repeat case_bool_decide; simpl; try done; lia.
  - rewrite bool_decide_eq_true_2 by (left; lia). done.
Qed.

End OCRLoop.

Lemma extract_text_picks_best_reading_witness :
  Some (calculate_image_hash (H := plain_imaging) frame) ≠ _last_image_hash fresh_engine
  ∧ (if preprocess fresh_engine
     then preprocess_image_for_ocr (H := plain_imaging) frame else Some frame)
    = Some ((800, 400)%Z, [Byte.x01; Byte.x02; Byte.x03])
  ∧ reading fallback_reader ((800, 400)%Z, [Byte.x01; Byte.x02; Byte.x03]) "ita" 6 = None
  ∧ (extract_text fallback_reader fresh_engine frame "ita").1.1 = "Ciao Imondo"
  ∧ (extract_text fallback_reader fresh_engine frame "ita").2
    = [ImageToString 6; ImageToString 3; ImageToString 7].
Proof.
  assert (Some (calculate_image_hash (H := plain_imaging) frame)
          ≠ _last_image_hash fresh_engine) as Hmemo by done.
  assert ((if preprocess fresh_engine
           then preprocess_image_for_ocr (H := plain_imaging) frame else Some frame)
          = Some ((800, 400)%Z, [Byte.x01; Byte.x02; Byte.x03])) as Hproc
    by reflexivity.
  split_and!; [exact Hmemo | exact Hproc | reflexivity | reflexivity |].
  apply (extract_text_picks_best_reading fallback_reader fresh_engine frame _ "ita"
           Hmemo Hproc).
  reflexivity.
Defined.

Lemma extract_text_returns_clean_text_witness :
  Some (calculate_image_hash (H := plain_imaging) frame) ≠ _last_image_hash fresh_engine
  ∧ (if preprocess fresh_engine
     then preprocess_image_for_ocr (H := plain_imaging) frame else Some frame)
    = Some ((800, 400)%Z, [Byte.x01; Byte.x02; Byte.x03])
  ∧ strip (extract_text line_reader fresh_engine frame "ita").1.1
    = (extract_text line_reader fresh_engine frame "ita").1.1
  ∧ ("|"%char ∉ chars (extract_text line_reader fresh_engine frame "ita").1.1)
  ∧ ((extract_text line_reader fresh_engine frame "ita").1.1 = EmptyString
     ↔ readings line_reader ((800, 400)%Z, [Byte.x01; Byte.x02; Byte.x03]) "ita"
         (psm_modes (H := plain_imaging) ((800, 400)%Z, [Byte.x01; Byte.x02; Byte.x03]))
       = []).
Proof.
  assert (Some (calculate_image_hash (H := plain_imaging) frame)
          ≠ _last_image_hash fresh_engine) as Hmemo by done.
  assert ((if preprocess fresh_engine
           then preprocess_image_for_ocr (H := plain_imaging) frame else Some frame)
          = Some ((800, 400)%Z, [Byte.x01; Byte.x02; Byte.x03])) as Hproc
    by reflexivity.
  split; [exact Hmemo|]. split; [exact Hproc|].
  exact (extract_text_returns_clean_text line_reader fresh_engine frame _ "ita"
           Hmemo Hproc).
Defined.

(** *** Language codes *)

(** X25: the three language tables agree: every language offered by
    [get_supported_languages] is accepted by [validate_language_code] and has
    its own entry in the mapping to Tesseract codes (no two languages share a
    code, and only "en" maps to "eng"); the two further codes that
    [validate_language_code] accepts have no entry and fall back to "eng". *)
Theorem language_tables_agree :
  mapping.*1 = Translate.get_supported_languages.*1
  ∧ NoDup mapping.*2
  ∧ Forall (λ code,
       validate_language_code code = true
       ∧ Cache.od_get code mapping = Some (map_language_to_tesseract code)
       ∧ (map_language_to_tesseract code = "eng" → code = "en"))
      Translate.get_supported_languages.*1
  ∧ Forall (λ code,
       code ∈ Translate.get_supported_languages.*1
       ∨ Cache.od_get code mapping = None
         ∧ map_language_to_tesseract code = "eng")
      valid_codes.
Proof.
  split_and!.
  - reflexivity.
  - cbn [fmap list_fmap snd mapping].
    repeat (apply NoDup_cons; split;
            [rewrite ?not_elem_of_cons; split_and?; try done; apply not_elem_of_nil|]).
    apply NoDup_nil_2.
  - cbn [fmap list_fmap fst Translate.get_supported_languages].
    repeat (apply Forall_cons; split; [split_and!; [reflexivity..|vm_compute; done]|]).
    apply Forall_nil_2.
  - cbn [valid_codes].
    repeat (apply Forall_cons; split;
            [first [right; split; reflexivity
                   | left; cbn [fmap list_fmap fst Translate.get_supported_languages];
                     rewrite !elem_of_cons; tauto]|]).
    apply Forall_nil_2.
Qed.

End OcrFacts.

(** ** gui.py: the loop over the regions *)

Module GuiFacts.

Import Utils UtilsFacts Ocr OcrFacts Gui.

Section Regions.
Context `{Imaging}.

Lemma extract_text_preprocess tess self (image : Image) language :
  preprocess (extract_text tess self image language).1.2 = preprocess self.
Proof.
  unfold extract_text. case_bool_decide; [done|].
  destruct (if preprocess self then _ else _) as [processed|]; [|done].
  by destruct (psm_loop _ _ _ _ _ _) as [[best results] e].
Qed.

Lemma extract_text_hash tess self (image : Image) language :
  processable self image →
  _last_image_hash (extract_text tess self image language).1.2
  = Some (calculate_image_hash image).
Proof.
  intros Hproc.
  pose proof (extract_text_no_error tess self image language Hproc) as Herr.
  pose proof (extract_text_stores tess self image language) as Hstore.
  destruct (extract_text tess self image language) as [[text self'] evs].
  by destruct (Hstore text self' evs eq_refl Herr).
Qed.

(** A call that the memo does not answer does something: it runs the OCR
    program when the image can be processed, and reports an error
    otherwise. *)
Lemma extract_text_not_memo tess self (image : Image) language :
  Some (calculate_image_hash image) ≠ _last_image_hash self →
  (extract_text tess self image language).2 ≠ []
  ∧ (processable self image →
     ∃ psm, ImageToString psm ∈ (extract_text tess self image language).2).
Proof.
  intros Hmemo.
  destruct (if preprocess self then preprocess_image_for_ocr image else Some image)
    as [processed|] eqn:Hproc.
  - rewrite (extract_text_fresh tess self image processed language Hmemo Hproc).
    destruct (reading tess processed language _); simpl.
    + split; [done|]. intros _. eexists. left.
    + destruct (psm_modes_cases processed) as [-> | ->]; simpl;
        (split; [done|]); intros _; eexists; left.
  - unfold extract_text. rewrite bool_decide_eq_false_2 by done.
    rewrite Hproc. simpl. split; [done|].
    intros [Hoff|[processed Hsome]].
    + by rewrite Hoff in Hproc.
    + rewrite Hsome in Hproc. by destruct (preprocess self).
Qed.

Lemma ocr_regions_cons self tess (image : Image) frames language :
  (ocr_regions self ((tess, image) :: frames) language).2
  = (extract_text tess self image language).2
    :: (ocr_regions (extract_text tess self image language).1.2 frames language).2.
Proof.
  simpl. destruct (extract_text tess self image language) as [[text self1] evs].
  simpl. by destruct (ocr_regions self1 frames language) as [[lines self2] evss].
Qed.

(** X26: the engine remembers one image only.  In a run of calls over the
    regions, a call whose image has another hash than the image of the call
    before it (which was processed) is never answered from the memo: it runs
    the OCR program again when its image can be processed, and reports an
    error otherwise.  With two regions that show different images, every
    pass reads both regions again, even when nothing on the screen changed. *)
Theorem one_slot_memo_misses_alternating_images (self : OCREngine)
    (frames : list (Tesseract * Image)) (language : string) (i : nat)
    (tess1 tess2 : Tesseract) (image1 image2 : Image) :
  frames !! i = Some (tess1, image1) →
  frames !! S i = Some (tess2, image2) →
  calculate_image_hash image2 ≠ calculate_image_hash image1 →
  processable self image1 →
  ∃ evs, (ocr_regions self frames language).2 !! S i = Some evs
         ∧ evs ≠ []
         ∧ (processable self image2 → ∃ psm, ImageToString psm ∈ evs).
Proof.
  revert self i. induction frames as [|[tess image] frames IH];
    intros self i H1 H2 Hhash Hproc; [done|].
  rewrite ocr_regions_cons. destruct i as [|i].
  - injection H1 as -> ->. destruct frames as [|[tess' image'] frames]; [done|].
    injection H2 as -> ->. rewrite ocr_regions_cons. cbn [lookup list_lookup].
    eexists. split; [done|].
    pose proof (extract_text_hash tess1 self image1 language Hproc) as Hstored.
    pose proof (extract_text_preprocess tess1 self image1 language) as Hpre.
    destruct (extract_text_not_memo tess2
                (extract_text tess1 self image1 language).1.2 image2 language)
      as [Hne Hrun].
    { rewrite Hstored. congruence. }
    split; [done|]. intros Hproc2. apply Hrun.
    unfold processable in *. by rewrite Hpre.
  - cbn [lookup list_lookup] in *.
    pose proof (extract_text_preprocess tess self image language) as Hpre.
    destruct (IH (extract_text tess self image language).1.2 i H1 H2 Hhash)
      as (evs & Hevs & Hne & Hrun).
    { unfold processable in *. by rewrite Hpre. }
    exists evs. split_and!; [done..|]. intros Hproc2. apply Hrun.
    unfold processable in *. by rewrite Hpre.
Qed.

Lemma ocr_regions_lines self (frames : list (Tesseract * Image)) language :
  Forall (λ line, line ≠ EmptyString ∧ strip line = line)
    (ocr_regions self frames language).1.1.
Proof.
  revert self. induction frames as [|[tess image] frames IH]; intros self; simpl.
  - constructor.
  - destruct (extract_text tess self image language) as [[text self1] evs].
    specialize (IH self1).
    destruct (ocr_regions self1 frames language) as [[lines self2] evss].
    simpl in *. destruct (negb (is_empty text) && negb (is_empty (strip text)))
      eqn:Hkeep; [|done].
    constructor; [|done].
    apply andb_true_iff in Hkeep as [_ Hstrip]. apply negb_true_iff in Hstrip.
    split; [by apply is_empty_false|apply strip_idempotent].
Qed.

End Regions.

Lemma one_slot_memo_misses_alternating_images_witness :
  ∃ evs,
    (ocr_regions fresh_engine
       [(line_reader, frame); (line_reader, other_frame); (line_reader, frame)]
       "ita").2 !! 2 = Some evs
    ∧ evs ≠ []
    ∧ (processable fresh_engine frame → ∃ psm, ImageToString psm ∈ evs).
Proof.
  refine (one_slot_memo_misses_alternating_images (H := plain_imaging)
            fresh_engine
            [(line_reader, frame); (line_reader, other_frame); (line_reader, frame)]
            "ita" 1 line_reader line_reader other_frame frame
            eq_refl eq_refl _ _).
  - vm_compute. discriminate.
  - right. vm_compute. eexists. reflexivity.
Defined.

Lemma rstrip_app x y :
  rstrip y ≠ EmptyString → rstrip (x +:+ y) = x +:+ rstrip y.
Proof.
  intros Hy. induction x as [|c x IH]; [done|].
  change (String c x +:+ y) with (String c (x +:+ y)).
  change (String c x +:+ rstrip y) with (String c (x +:+ rstrip y)).
  cbn [rstrip]. rewrite IH.
  destruct (x +:+ rstrip y) eqn:Heq; [|done].
  destruct x; [|done]. simpl in Heq. done.
Qed.

Lemma stripped_parts line :
  line ≠ EmptyString → strip line = line →
  starts_clean line ∧ rstrip line = line.
Proof.
  intros Hne Hs. split.
  - rewrite <- Hs. apply strip_starts_clean.
  - rewrite <- Hs at 1. unfold strip. by rewrite rstrip_idempotent.
Qed.

Lemma concat_stripped (lines : list string) :
  lines ≠ [] →
  Forall (λ line, line ≠ EmptyString ∧ strip line = line) lines →
  String.concat " " lines ≠ EmptyString
  ∧ strip (String.concat " " lines) = String.concat " " lines.
Proof.
  induction lines as [|line lines IH]; [done|]. intros _ Hall.
  apply Forall_cons in Hall as [[Hne Hs] Hall].
  destruct lines as [|line' lines]; [done|].
  destruct IH as [Hne' Hs']; [done..|].
  set (rest := String.concat " " (line' :: lines)) in *.
  change (String.concat " " (line :: line' :: lines))
    with (line +:+ (" " +:+ rest)).
  destruct (stripped_parts line Hne Hs) as [Hclean _].
  destruct (stripped_parts rest Hne' Hs') as [_ Hrest].
  destruct (starts_clean_app line (" " +:+ rest) Hne Hclean) as [Hc Hn].
  split; [done|]. unfold strip. rewrite lstrip_clean by done.
  assert (rstrip (" " +:+ rest) = " " +:+ rest) as Hr.
  { rewrite rstrip_app by (by rewrite Hrest). by rewrite Hrest. }
  rewrite rstrip_app by (rewrite Hr; by destruct rest). by rewrite Hr.
Qed.

(** X27: what [_do_manual_translation] hands to the translator.  The
    combined text has no leading or trailing whitespace; when it is empty
    (no region gave a non-blank text) the translator is not called; otherwise
    [translate] is called on it, and what it looks up in the cache, if it
    gets that far, is the combined text itself. *)
Theorem manual_translation_passes_stripped_text `{Imaging}
    (env : Translate.Provider) (ocr_engine : OCREngine)
    (translator : Translate.Translator) (frames : list (Tesseract * Image))
    (source_language : string) :
  let lines :=
    (ocr_regions ocr_engine frames (map_language_to_tesseract source_language)).1.1 in
  let result := manual_translation env ocr_engine translator frames source_language in
  result.1 = combined_text lines
  ∧ strip result.1 = result.1
  ∧ (result.1 = EmptyString ↔ lines = [])
  ∧ (lines = [] → result.2 = None)
  ∧ (lines ≠ [] →
     result.2 = Some (Translate.translate env translator result.1 false)
     ∧ ((Translate.translate env translator result.1 false).2 = []
        ∨ ∃ evs, (Translate.translate env translator result.1 false).2
                 = Translate.CacheGet result.1 :: evs)).
Proof.
  intros lines result. subst lines result. unfold manual_translation.
  pose proof (ocr_regions_lines ocr_engine frames
                (map_language_to_tesseract source_language)) as Hall.
  destruct (ocr_regions ocr_engine frames (map_language_to_tesseract source_language))
    as [[lines self'] evss]. simpl in *.
  destruct lines as [|line lines].
  { simpl. split_and!; done. }
  destruct (concat_stripped (line :: lines) ltac:(done) Hall) as [Hne Hs].
  change (combined_text (line :: lines)) with (String.concat " " (line :: lines)).
  set (text := String.concat " " (line :: lines)) in *.
  apply is_empty_false in Hne as Hne'. rewrite Hne'.
  split_and!; [done..| |done|].
  - split; [done|]. intros [=].
  - intros _. split; [done|]. unfold Translate.translate.
    rewrite TranslateFacts.not_blank by (by rewrite Hs). rewrite Hs.
    destruct (TranslateFacts.similar_to_last_total translator text false)
      as [[] ->]; [by left|right].
    destruct (Cache.get text (Translate.cache translator)) as [[cached|] c];
      [by eexists|].
    destruct (Translate.try_translate env _ text) as [[[r|] s1] e1]; by eexists.
Qed.

End GuiFacts.
